(** * Aegis: a shallow embedding of [aegis seal] and [aegis unseal]

    Sources: [internal/cli/seal.go] (the [sealCmd] walk function) and the
    [unsealCmd] walk function of the unseal command, together with the parts
    of Go's [path/filepath] and [strings] packages that they call.

    Data as the code has it:
    - a Go [string] is a [String.string] (an [ascii] is a full 8-bit byte);
    - a Go [[]byte] is a [list Byte.byte];
    - the cryptographic primitives ([scrypt.Key], [aes.NewCipher],
      [cipher.NewGCM], [gcm.Seal], [gcm.Open]) are the fields of a record
      [Crypto]; each one that returns an [error] in Go returns an [option];
    - the operating system is an explicit state: the bytes a path reads as,
      the entropy left to [crypto/rand], and an environment deciding whether
      [os.WriteFile] and [os.Remove] succeed on a path. *)

From Stdlib Require Import PrimFloat.
From Stdlib Require Uint63.
From Stdlib Require Import String Ascii List Arith Lia Bool.
From Stdlib Require Import ZArith Sorted.
#[local] Set Warnings "-inexact-float".
Import ListNotations.

Definition bytes := list Byte.byte.

(** ** Go strings *)

Definition string_to_bytes (s : string) : bytes :=
  map Ascii.byte_of_ascii (list_ascii_of_string s).

Definition bytes_to_string (b : bytes) : string :=
  string_of_list_ascii (map Ascii.ascii_of_byte b).

Definition slash : ascii := "/"%char.
Definition dot : ascii := "."%char.

(** [filepath.Ext]: scan back from the end up to the last separator; the
    extension starts at the last dot. [r] is the path reversed, [acc] the
    characters already passed, in their original order. *)
Fixpoint ext_scan (r acc : list ascii) : list ascii :=
  match r with
  | [] => []
  | ch :: r' =>
      if Ascii.eqb ch slash then []
      else if Ascii.eqb ch dot then ch :: acc
      else ext_scan r' (ch :: acc)
  end.

Definition Ext (path : string) : string :=
  string_of_list_ascii (ext_scan (rev (list_ascii_of_string path)) []).

(** [filepath.Base] of a path without trailing separator. *)
Fixpoint base_scan (r acc : list ascii) : list ascii :=
  match r with
  | [] => acc
  | ch :: r' => if Ascii.eqb ch slash then acc else base_scan r' (ch :: acc)
  end.

Definition Base (path : string) : string :=
  string_of_list_ascii (base_scan (rev (list_ascii_of_string path)) []).

(** [basename] of package [os], which gives [os.Lstat(name).Name()]: the
    trailing separators are removed (all but a first character), then
    what follows the last separator before the final character is kept.
    [r] is the name reversed. *)
Fixpoint trim_trailing_slashes (r : list ascii) : list ascii :=
  match r with
  | ch :: ((_ :: _) as r') => if Ascii.eqb ch slash then trim_trailing_slashes r' else r
  | _ => r
  end.

Definition os_basename (name : string) : string :=
  match trim_trailing_slashes (rev (list_ascii_of_string name)) with
  | [] => EmptyString
  | last :: r => string_of_list_ascii (base_scan r [last])
  end.

(** [filepath.Dir] of a clean path: everything before the last separator,
    ["."] when there is none, ["/"] when it is the first character. *)
Fixpoint dir_scan (r : list ascii) : option (list ascii) :=
  match r with
  | [] => None
  | ch :: r' => if Ascii.eqb ch slash then Some r' else dir_scan r'
  end.

Definition Dir (path : string) : string :=
  match dir_scan (rev (list_ascii_of_string path)) with
  | None => "."%string
  | Some [] => "/"%string
  | Some r => string_of_list_ascii (rev r)
  end.

(** [filepath.Join] of a clean directory path and a single name. *)
Definition Join (dir name : string) : string := (dir ++ "/"%string ++ name)%string.

(** [strings.HasSuffix] and [strings.TrimSuffix]. *)
Definition HasSuffix (s suffix : string) : bool :=
  let n := String.length s in
  let k := String.length suffix in
  Nat.leb k n && String.eqb (substring (n - k) k s) suffix.

Definition TrimSuffix (s suffix : string) : string :=
  if HasSuffix s suffix
  then substring 0 (String.length s - String.length suffix) s
  else s.

Definition aegis_suffix : string := ".aegis"%string.

(** ** Cryptographic primitives *)

Record Crypto := {
  Block : Type;
  Aead : Type;
  (** [scrypt.Key(password, salt, 1<<15, 8, 1, 32)] *)
  scrypt_key : bytes -> bytes -> option bytes;
  (** [aes.NewCipher(key)] *)
  aes_new_cipher : bytes -> option Block;
  (** [cipher.NewGCM(block)] *)
  new_gcm : Block -> option Aead;
  (** [gcm.Seal(nil, nonce, plaintext, nil)] *)
  gcm_seal : Aead -> bytes -> bytes -> bytes;
  (** [gcm.Open(nil, nonce, ciphertext, nil)]; [None] when the tag check fails *)
  gcm_open : Aead -> bytes -> bytes -> option bytes
}.

Arguments new_gcm {_}.
Arguments gcm_seal {_}.
Arguments gcm_open {_}.

(** [gcm.NonceSize()] of a GCM built by [cipher.NewGCM]. *)
Definition gcmStandardNonceSize : nat := 12.

(** The key derivation and AEAD construction that both commands perform,
    collapsed into one partial function (used to state assumptions). *)
Definition derive_aead (c : Crypto) (password salt : bytes) : option (Aead c) :=
  match scrypt_key c password salt with
  | None => None
  | Some key =>
      match aes_new_cipher c key with
      | None => None
      | Some block => new_gcm block
      end
  end.

(** ** The artifact, as written by [sealCmd] *)

(** [plaintextWithExt := append(append(originalExt, 0x00), plaintext...)] *)
Definition envelope (originalExt plaintext : bytes) : bytes :=
  originalExt ++ Byte.x00 :: plaintext.

(** [final := append(salt, append(nonce, gcm.Seal(nil, nonce, plaintextWithExt, nil)...)...)] *)
Definition seal_final (c : Crypto) (gcm : Aead c) (salt nonce originalExt plaintext : bytes)
  : bytes :=
  salt ++ nonce ++ gcm_seal gcm nonce (envelope originalExt plaintext).

(** ** Decryption of one artifact, as done by [unsealCmd] *)

Inductive unseal_result :=
  | UMalformed                     (* too short: "too short/corrupted" or "malformed" *)
  | UKeyErr                        (* scrypt.Key returned an error *)
  | UCipherErr                     (* aes.NewCipher returned an error *)
  | UGcmErr                        (* cipher.NewGCM returned an error *)
  | UAuthFailed                    (* gcm.Open returned an error *)
  | ULegacy (plaintextWithExt : bytes)   (* no 0x00 separator found *)
  | UOk (originalExt plaintext : bytes).

(** The loop [for i, b := range plaintextWithExt { if b == 0x00 { ... break } }]:
    the index of the first 0x00, [None] for [nullIndex == -1]. *)
Fixpoint null_index_from (bs : bytes) (i : nat) : option nat :=
  match bs with
  | [] => None
  | b :: rest => if Byte.eqb b Byte.x00 then Some i else null_index_from rest (S i)
  end.

Definition null_index (bs : bytes) : option nat := null_index_from bs 0.

Definition unseal_data (c : Crypto) (password data : bytes) : unseal_result :=
  if Nat.ltb (length data) (16 + 12) then UMalformed else
  let salt := firstn 16 data in
  match scrypt_key c password salt with
  | None => UKeyErr
  | Some key =>
      match aes_new_cipher c key with
      | None => UCipherErr
      | Some block =>
          match new_gcm block with
          | None => UGcmErr
          | Some gcm =>
              let nonceSize := gcmStandardNonceSize in
              if Nat.ltb (length data) (16 + nonceSize) then UMalformed else
              let nonce := firstn nonceSize (skipn 16 data) in
              let ciphertext := skipn (16 + nonceSize) data in
              match gcm_open gcm nonce ciphertext with
              | None => UAuthFailed
              | Some plaintextWithExt =>
                  match null_index plaintextWithExt with
                  | None => ULegacy plaintextWithExt
                  | Some nullIndex =>
                      UOk (firstn nullIndex plaintextWithExt)
                          (skipn (S nullIndex) plaintextWithExt)
                  end
              end
          end
      end
  end.

(** ** The operating system *)

(** What [os.Lstat] reports about a path: a regular file, a symbolic link
    ([info.Mode() & os.ModeSymlink != 0], [info.IsDir()] false), a
    directory with the entries [readDirNames] lists, in the order it lists
    them (sorted by name), a directory on which [readDirNames] fails (it
    cannot be opened or read), or an error: [os.Lstat] itself fails and
    [info] is nil (a listed name that has gone, or a directory that can be
    listed but not searched). *)
#[local] Set Warnings "-register-all".
Inductive node :=
  | Reg
  | Symlink
  | DirNode (children : list (string * node))
  | DirUnreadable
  | NoStat.

(** [info.IsDir()] *)
Definition is_dir (n : node) : bool :=
  match n with DirNode _ | DirUnreadable => true | _ => false end.

Definition is_symlink (n : node) : bool :=
  match n with Symlink => true | _ => false end.

(** [files p] is what [os.ReadFile(p)] returns ([None]: it fails); for a
    symbolic link it is the content of its target, since [os.ReadFile]
    follows links. [entropy] is what [crypto/rand] can still deliver. *)
Record os_state := mk_os {
  files : string -> option bytes;
  entropy : list Byte.byte
}.

(** Whether [os.WriteFile] and [os.Remove] succeed on a given path. *)
Record os_env := mk_env {
  write_ok : string -> bool;
  remove_ok : string -> bool
}.

Definition update_file (st : os_state) (p : string) (v : option bytes) : os_state :=
  mk_os (fun q => if String.eqb q p then v else files st q) (entropy st).

Definition read_file (st : os_state) (p : string) : option bytes := files st p.

Definition write_file (env : os_env) (st : os_state) (p : string) (data : bytes)
  : option os_state :=
  if write_ok env p then Some (update_file st p (Some data)) else None.

Definition remove_file (env : os_env) (st : os_state) (p : string) : option os_state :=
  if remove_ok env p then Some (update_file st p None) else None.

(** [rand.Read] / [io.ReadFull(rand.Reader, ...)] of [n] bytes. *)
Definition rand_read (n : nat) (st : os_state) : option (bytes * os_state) :=
  if Nat.leb n (length (entropy st))
  then Some (firstn n (entropy st), mk_os (files st) (skipn n (entropy st)))
  else None.

(** ** [filepath.Walk] *)

Inductive walk_error :=
  | ErrLstat                   (* [os.Lstat] of the root or of an entry fails *)
  | ErrReadDir                 (* [readDirNames] of a directory fails *)
  | ErrSalt | ErrKey | ErrCipher | ErrGcm | ErrNonce | ErrWrite.

(** What a walk function returns: [nil], [filepath.SkipDir] or an error. *)
Inductive walk_ret :=
  | WNil
  | WSkipDir
  | WErr (e : walk_error).

Section Walk.
Context {St : Type}.
  (** [walkFn path info err]; [info.Name()] is passed as [name], and the
      error [filepath.Walk] hands over as [err] ([None] for nil). *)
Variable walkFn : string -> string -> node -> option walk_error -> St -> St * walk_ret.

  (** [walk(path, info, walkFn)] of [path/filepath]. A non-directory is
      handed to [walkFn]. For a directory, [readDirNames] runs first and
      [walkFn] gets its error; unless both are nil, the walk returns what
      [walkFn] returned. Otherwise the entries are walked in order: an entry
      [os.Lstat] fails on is handed to [walkFn] with that error, and only a
      result other than nil and [SkipDir] stops; any other entry is walked,
      [SkipDir] from a directory entry skips that entry, and any other
      non-nil result stops. *)
Fixpoint walk (path name : string) (n : node) (st : St) : St * walk_ret :=
    match n with
    | DirNode children =>
        let '(st1, r) := walkFn path name n None st in
        match r with
        | WNil =>
            (fix walk_names (l : list (string * node)) (s : St) : St * walk_ret :=
               match l with
               | [] => (s, WNil)
               | (nm, child) :: rest =>
                   match child with
                   | NoStat =>
                       let '(s2, r2) := walkFn (Join path nm) nm NoStat (Some ErrLstat) s in
                       match r2 with
                       | WErr e => (s2, WErr e)
                       | _ => walk_names rest s2
                       end
                   | _ =>
                       let '(s2, r2) := walk (Join path nm) nm child s in
                       match r2 with
                       | WNil => walk_names rest s2
                       | WSkipDir => if is_dir child then walk_names rest s2 else (s2, WSkipDir)
                       | WErr e => (s2, WErr e)
                       end
                   end
               end) children st1
        | _ => (st1, r)
        end
    | DirUnreadable => walkFn path name n (Some ErrReadDir) st
    | NoStat => walkFn path name n (Some ErrLstat) st
    | _ => walkFn path name n None st
    end.

  (** [filepath.Walk(root, walkFn)]: [None] is a root that [os.Lstat]
      cannot stat, handed to [walkFn] with that error; the root's [info.Name()]
      is [os_basename root]. [SkipDir] at the top is [nil]. *)
Definition Walk (root : string) (rootInfo : option node) (st : St) : St * walk_ret :=
    let n := match rootInfo with Some n => n | None => NoStat end in
    let '(st', r) := walk root (os_basename root) n st in
    match r with
    | WSkipDir => (st', WNil)
    | _ => (st', r)
    end.
End Walk.

(** ** [aegis seal] *)

(** [excludeList := []string{".git", "vendor", "node_modules", "target"}];
    [excludeSet[name]] is [true] exactly for its members. *)
Definition excludeList : list string :=
  [".git"%string; "vendor"%string; "node_modules"%string; "target"%string]%string.

Definition excludeSet (name : string) : bool :=
  existsb (String.eqb name) excludeList.

Record seal_state := mk_seal {
  seal_os : os_state;
  filesSealed : nat;
  filesSkipped : nat
}.

(** [out := filepath.Join(filepath.Dir(path), strings.TrimSuffix(filepath.Base(path), filepath.Ext(path)) + ".aegis")] *)
Definition seal_out_path (path : string) : string :=
  Join (Dir path) (TrimSuffix (Base path) (Ext path) ++ aegis_suffix)%string.

Section Seal.
Variable c : Crypto.
Variable env : os_env.
Variable password : bytes.

  (** The function literal passed to [filepath.Walk] in [sealCmd]. *)
Definition seal_walk_fn (path name : string) (info : node) (err : option walk_error)
    (st : seal_state) : seal_state * walk_ret :=
    match err with
    | Some e => (st, WErr e)
    | None =>
    let os0 := seal_os st in
    if is_dir info then
        if excludeSet name then (st, WSkipDir)
        else (st, WNil)     (* both [path == dir] and the other case return nil *)
    else if is_symlink info then
        (mk_seal os0 (filesSealed st) (S (filesSkipped st)), WNil)
    else
        if HasSuffix path aegis_suffix then
          (mk_seal os0 (filesSealed st) (S (filesSkipped st)), WNil)
        else
        match read_file os0 path with
        | None => (st, WNil)          (* "Could not read file ... Skipping." *)
        | Some plaintext =>
        match rand_read 16 os0 with
        | None => (st, WErr ErrSalt)
        | Some (salt, os1) =>
        let st1 := mk_seal os1 (filesSealed st) (filesSkipped st) in
        match scrypt_key c password salt with
        | None => (st1, WErr ErrKey)
        | Some key =>
        match aes_new_cipher c key with
        | None => (st1, WErr ErrCipher)
        | Some block =>
        match new_gcm block with
        | None => (st1, WErr ErrGcm)
        | Some gcm =>
        match rand_read gcmStandardNonceSize os1 with
        | None => (st1, WErr ErrNonce)
        | Some (nonce, os2) =>
        let originalExt := string_to_bytes (Ext path) in
        let final := seal_final c gcm salt nonce originalExt plaintext in
        let out := seal_out_path path in
        match write_file env os2 out final with
        | None => (mk_seal os2 (filesSealed st) (filesSkipped st), WErr ErrWrite)
        | Some os3 =>
            let os4 := match remove_file env os3 path with
                       | Some o => o
                       | None => os3     (* "Warning: Failed to remove original file" *)
                       end in
            (mk_seal os4 (S (filesSealed st)) (filesSkipped st), WNil)
        end end end end end end end
    end.

  (** What the run reports: [os.Exit(1)] after "Fatal Error during sealing",
      or the summary with the sealed and skipped counts. *)
Inductive seal_outcome :=
    | SealFatal (e : walk_error)
    | SealComplete (sealed skipped : nat).

Definition seal_run (dir : string) (rootInfo : option node) (os0 : os_state)
    : os_state * seal_outcome :=
    let '(st, walkErr) := Walk seal_walk_fn dir rootInfo (mk_seal os0 0 0) in
    match walkErr with
    | WErr e => (seal_os st, SealFatal e)
    | _ => (seal_os st, SealComplete (filesSealed st) (filesSkipped st))
    end.
End Seal.

(** ** [aegis unseal] *)

Record unseal_state := mk_unseal {
  unseal_os : os_state;
  filesUnsealed : nat;
  filesFailed : nat;
  uFilesSkipped : nat
}.

Section Unseal.
Variable c : Crypto.
Variable env : os_env.
Variable password : bytes.

Definition failed (st : unseal_state) (o : os_state) : unseal_state :=
    mk_unseal o (filesUnsealed st) (S (filesFailed st)) (uFilesSkipped st).

  (** The function literal passed to [filepath.Walk] in [unsealCmd]. *)
Definition unseal_walk_fn (path name : string) (info : node) (err : option walk_error)
    (st : unseal_state) : unseal_state * walk_ret :=
    match err with
    | Some e => (st, WErr e)
    | None =>
    let os0 := unseal_os st in
    if is_dir info then (st, WNil) else
    if negb (HasSuffix path aegis_suffix) then
      (mk_unseal os0 (filesUnsealed st) (filesFailed st) (S (uFilesSkipped st)), WNil)
    else
    match read_file os0 path with
    | None => (failed st os0, WNil)
    | Some data =>
        match unseal_data c password data with
        | UMalformed | UKeyErr | UAuthFailed => (failed st os0, WNil)
        | UCipherErr => (failed st os0, WErr ErrCipher)
        | UGcmErr => (failed st os0, WErr ErrGcm)
        | ULegacy plaintextWithExt =>
            (* "Warning: Could not find original extension"; the results of
               [os.WriteFile] and [os.Remove] are not checked *)
            let out := TrimSuffix path aegis_suffix in
            let os1 := match write_file env os0 out plaintextWithExt with
                       | Some o => o | None => os0 end in
            let os2 := match remove_file env os1 path with
                       | Some o => o | None => os1 end in
            (failed st os2, WNil)
        | UOk originalExt plaintext =>
            let base := TrimSuffix path aegis_suffix in
            let out := (base ++ bytes_to_string originalExt)%string in
            match write_file env os0 out plaintext with
            | None => (failed st os0, WNil)
            | Some os1 =>
                let os2 := match remove_file env os1 path with
                           | Some o => o | None => os1 end in
                (mk_unseal os2 (S (filesUnsealed st)) (filesFailed st) (uFilesSkipped st),
                 WNil)
            end
        end
    end
    end.

Inductive unseal_outcome :=
    | UnsealFatal (e : walk_error)
    | UnsealComplete (unsealed failedN skipped : nat).

Definition unseal_run (dir : string) (rootInfo : option node) (os0 : os_state)
    : os_state * unseal_outcome :=
    let '(st, walkErr) := Walk unseal_walk_fn dir rootInfo (mk_unseal os0 0 0 0) in
    match walkErr with
    | WErr e => (unseal_os st, UnsealFatal e)
    | _ => (unseal_os st,
            UnsealComplete (filesUnsealed st) (filesFailed st) (uFilesSkipped st))
    end.
End Unseal.

(** ** A concrete instance of the primitives, for evaluation

    Keys are the password itself; a ciphertext is the key in a prefix-free
    encoding followed by the message, and [gcm_open] checks that prefix
    against its own key, the way the GCM tag binds a ciphertext to its key. *)
Module Toy.
Fixpoint encode (k : bytes) : bytes :=
    match k with
    | [] => [Byte.x00]
    | b :: rest => Byte.x01 :: b :: encode rest
    end.

Fixpoint decode (ct : bytes) : option (bytes * bytes) :=
    match ct with
    | Byte.x00 :: rest => Some ([], rest)
    | Byte.x01 :: b :: rest =>
        match decode rest with
        | Some (k, m) => Some (b :: k, m)
        | None => None
        end
    | _ => None
    end.

Definition open (k nonce ct : bytes) : option bytes :=
    match decode ct with
    | Some (k', m) => if list_eq_dec Byte.byte_eq_dec k k' then Some m else None
    | None => None
    end.

Definition crypto : Crypto := {|
    Block := bytes;
    Aead := bytes;
    scrypt_key := fun pw salt => Some pw;
    aes_new_cipher := fun key => Some key;
    new_gcm := fun block => Some block;
    gcm_seal := fun k nonce m => encode k ++ m;
    gcm_open := open
  |}.

End Toy.

Definition env_all_ok : os_env := mk_env (fun _ => true) (fun _ => true).

Definition fs_of (l : list (string * bytes)) : string -> option bytes :=
  fun p => match find (fun e => String.eqb (fst e) p) l with
           | Some (_, v) => Some v
           | None => None
           end.

Definition entropy_of (n : nat) : list Byte.byte := repeat Byte.x07 n.

(** The tree with the contents of every directory whose name is in
    [excludeSet] and which [readDirNames] can list removed, at any depth. *)
Fixpoint prune_excluded (name : string) (n : node) : node :=
  match n with
  | DirNode children =>
      if excludeSet name then DirNode []
      else DirNode ((fix prune_list (l : list (string * node)) : list (string * node) :=
                       match l with
                       | [] => []
                       | (nm, child) :: rest => (nm, prune_excluded nm child) :: prune_list rest
                       end) children)
  | _ => n
  end.

(** Characters that end neither a file name nor an extension. *)
Definition no_slash_char (ch : ascii) : bool := negb (Ascii.eqb ch slash).
Definition plain_char (ch : ascii) : bool := negb (Ascii.eqb ch slash) && negb (Ascii.eqb ch dot).

(** A single path element (what [readDirNames] returns), and an extension
    body (no separator, no dot). *)
Definition name_ok (s : string) : bool := forallb no_slash_char (list_ascii_of_string s).
Definition ext_body_ok (s : string) : bool := forallb plain_char (list_ascii_of_string s).

(** ** Concrete inputs *)

Definition ex_password : bytes := string_to_bytes "pw"%string.
Definition ex_other_password : bytes := string_to_bytes "pw2"%string.
Definition ex_salt : bytes := repeat Byte.x07 16.
Definition ex_nonce : bytes := repeat Byte.x07 12.
Definition ex_ext : bytes := string_to_bytes ".txt"%string.
Definition ex_plaintext : bytes := string_to_bytes "hello"%string.

(** An artifact of [hello] sealed from a [.txt] file under [ex_password]. *)
Definition ex_artifact : bytes :=
  seal_final Toy.crypto ex_password ex_salt ex_nonce ex_ext ex_plaintext.


Definition ex_collision_os : os_state :=
  mk_os (fs_of [("d/notes.md"%string, string_to_bytes "# notes"%string);
                ("d/notes.txt"%string, ex_plaintext)])
        (entropy_of 56).

Definition ex_two_files : node := DirNode [("a.txt"%string, Reg); ("b.txt"%string, Reg)].

Definition ex_two_files_os : os_state :=
  mk_os (fs_of [("d/a.txt"%string, string_to_bytes "a"%string); ("d/b.txt"%string, string_to_bytes "b"%string)])
        (entropy_of 100).

(** [os.WriteFile] fails on [p] only. *)
Definition env_write_fails_on (p : string) : os_env :=
  mk_env (fun q => negb (String.eqb q p)) (fun _ => true).

(** C3: sealing [d/a.txt] cannot write [d/a.aegis]. *)
Definition ex_seal_write_fails : os_state * seal_outcome :=
  seal_run Toy.crypto (env_write_fails_on "d/a.aegis"%string) ex_password "d"%string (Some ex_two_files)
           ex_two_files_os.





(** C6: unsealing a tree with an artifact under [vendor]. *)
Definition ex_unseal_vendor : os_state * unseal_outcome :=
  unseal_run Toy.crypto env_all_ok ex_password "d"%string
             (Some (DirNode [("vendor"%string, DirNode [("x.aegis"%string, Reg)])]))
             (mk_os (fs_of [("d/vendor/x.aegis"%string, ex_artifact)]) []).

(** C7: a symbolic link [d/link.aegis] whose target holds an artifact. *)
Definition ex_symlink_tree : node := DirNode [("link.aegis"%string, Symlink)].

Definition ex_symlink_os : os_state :=
  mk_os (fs_of [("d/link.aegis"%string, ex_artifact)]) (entropy_of 28).

(** C9: a file [d/a.txt] that cannot be read. *)
Definition ex_seal_unreadable : os_state * seal_outcome :=
  seal_run Toy.crypto env_all_ok ex_password "d"%string (Some (DirNode [("a.txt"%string, Reg)]))
           (mk_os (fun _ => None) (entropy_of 28)).

(** ** Trees as [aegis seal] and [aegis unseal] see them *)

(** Every directory of the tree can be listed, every entry can be
    stat-ed, and every regular file has a path ending in [.aegis]: a
    directory that has already been sealed. *)
Fixpoint all_sealed (path : string) (n : node) : bool :=
  match n with
  | Reg => HasSuffix path aegis_suffix
  | Symlink => true
  | DirUnreadable | NoStat => false
  | DirNode children =>
      (fix all_list (l : list (string * node)) : bool :=
         match l with
         | [] => true
         | (nm, child) :: rest => all_sealed (Join path nm) child && all_list rest
         end) children
  end.

(** The number of entries [sealCmd] counts as skipped in such a tree: the
    non-directories outside the excluded directories. *)
Fixpoint seal_skip_count (name : string) (n : node) : nat :=
  match n with
  | Reg | Symlink => 1
  | DirUnreadable | NoStat => 0
  | DirNode children =>
      if excludeSet name then 0
      else (fix count_list (l : list (string * node)) : nat :=
              match l with
              | [] => 0
              | (nm, child) :: rest => seal_skip_count nm child + count_list rest
              end) children
  end.

(** Every directory of the tree can be listed, every entry can be
    stat-ed, and no entry that is not a directory has a path ending in
    [.aegis]: nothing for [aegis unseal] to decrypt. *)
Fixpoint no_artifacts (path : string) (n : node) : bool :=
  match n with
  | Reg | Symlink => negb (HasSuffix path aegis_suffix)
  | DirUnreadable | NoStat => false
  | DirNode children =>
      (fix no_list (l : list (string * node)) : bool :=
         match l with
         | [] => true
         | (nm, child) :: rest => no_artifacts (Join path nm) child && no_list rest
         end) children
  end.

(** The entries of the tree that are not directories. *)
Fixpoint leaf_count (n : node) : nat :=
  match n with
  | Reg | Symlink => 1
  | DirUnreadable | NoStat => 0
  | DirNode children =>
      (fix count_list (l : list (string * node)) : nat :=
         match l with
         | [] => 0
         | (_, child) :: rest => leaf_count child + count_list rest
         end) children
  end.

(** ** [internal/cli/watch.go] *)

(** Go's [int] is 64 bits wide: [prev+1] wraps around. *)
Definition wrap64 (z : Z) : Z := (Z.modulo (z + 2 ^ 63) (2 ^ 64) - 2 ^ 63)%Z.

Definition digit_char (d : Z) : ascii := ascii_of_nat (48 + Z.to_nat d).

(** The decimal digits of [n >= 0] in front of [acc]; [fuel] bounds the
    number of digits. *)
Fixpoint decimal_digits (fuel : nat) (n : Z) (acc : string) : string :=
  match fuel with
  | O => acc
  | S f =>
      let acc' := String (digit_char (Z.rem n 10)) acc in
      if Z.eqb (Z.quot n 10) 0 then acc' else decimal_digits f (Z.quot n 10) acc'
  end.

(** [fmt.Sprintf("%d", z)]: the digits of [|z|] (no more than its bits),
    after a minus sign when [z < 0]. *)
Definition fmt_d (z : Z) : string :=
  let digits := decimal_digits (S (Z.to_nat (Z.log2 (Z.abs z)))) (Z.abs z) EmptyString in
  if Z.ltb z 0 then String "-"%char digits else digits.

(** The closure [appendRange(s, e)] of [formatLineRanges], writing to the
    builder [b]. *)
Definition appendRange (b : string) (s e : Z) : string :=
  let b1 := if Nat.ltb 0 (String.length b) then (b ++ ",")%string else b in
  if Z.eqb s e then (b1 ++ fmt_d s)%string
  else (b1 ++ fmt_d s ++ "-" ++ fmt_d e)%string.

(** The loop [for i := 1; i < len(lines); i++] of [formatLineRanges], on the
    state [(b, start, prev)]. *)
Fixpoint ranges_loop (b : string) (start prev : Z) (rest : list Z) : string * Z * Z :=
  match rest with
  | [] => (b, start, prev)
  | curr :: rest' =>
      if Z.eqb curr prev then ranges_loop b start prev rest'
      else if Z.eqb curr (wrap64 (prev + 1)) then ranges_loop b start curr rest'
      else ranges_loop (appendRange b start prev) curr curr rest'
  end.

Definition formatLineRanges (lines : list Z) : string :=
  match lines with
  | [] => "-"%string
  | first :: rest =>
      let '(b, start, prev) := ranges_loop EmptyString first first rest in
      appendRange b start prev
  end.

Definition formatLineRangeFromCount (count : Z) : string :=
  if Z.leb count 0 then "-"%string
  else if Z.eqb count 1 then "1"%string
  else ("1-" ++ fmt_d count)%string.

(** [truncate(s, maxLen)]; [None] is the run-time panic of [s[:maxLen-3]]
    when [maxLen - 3 < 0] ([maxLen - 3 <= len(s)] always holds there, as
    [len(s) > maxLen]). *)
Definition truncate (s : string) (maxLen : Z) : option string :=
  if Z.leb (Z.of_nat (String.length s)) maxLen then Some s
  else if Z.ltb (maxLen - 3) 0 then None
  else Some (substring 0 (Z.to_nat (maxLen - 3)) s ++ "...")%string.

(** [content[i] >= 32 && content[i] <= 126 || content[i] == '\n' ||
    content[i] == '\r' || content[i] == '\t'] *)
Definition is_printable (b : Byte.byte) : bool :=
  let n := Byte.to_nat b in
  (Nat.leb 32 n && Nat.leb n 126) || Nat.eqb n 10 || Nat.eqb n 13 || Nat.eqb n 9.

(** [float64(n)] of a Go [int] *)
Definition float64_of_int (n : nat) : PrimFloat.float :=
  PrimFloat.of_uint63 (Uint63.of_Z (Z.of_nat n)).

(** [isTextFile]: both loops run over [i < len(content) && i < 512], that
    is over [firstn 512 content]; the last line is
    [float64(printable)/float64(checkLen) > 0.85] in binary64. *)
Definition isTextFile (content : bytes) : bool :=
  match content with
  | [] => true
  | _ =>
      let window := firstn 512 content in
      if existsb (fun b => Byte.eqb b Byte.x00) window then false else
      let printable := length (filter is_printable window) in
      let checkLen := Nat.min (length content) 512 in
      PrimFloat.ltb (0.85)%float
        (PrimFloat.div (float64_of_int printable) (float64_of_int checkLen))
  end.

Definition newline : ascii := "010"%char.

(** [strings.Split(s, "\n")]: the pieces between the newlines, [[""]] for
    the empty string. *)
Fixpoint Split_nl (s : string) : list string :=
  match s with
  | EmptyString => [EmptyString]
  | String ch rest =>
      if Ascii.eqb ch newline then EmptyString :: Split_nl rest
      else match Split_nl rest with
           | first :: others => String ch first :: others
           | [] => [String ch EmptyString]
           end
  end.

(** The number of newline bytes of a file's content. *)
Definition count_nl (content : bytes) : nat :=
  length (filter (fun b => Byte.eqb b (Ascii.byte_of_ascii newline)) content).

(** [shouldExcludeDir] *)
Definition watchExcludeList : list string :=
  [".git"%string; "vendor"%string; "node_modules"%string; "target"%string;
   ".idea"%string; ".vscode"%string].

Definition shouldExcludeDir (name : string) : bool :=
  existsb (String.eqb name) watchExcludeList.

(** [strings.HasPrefix] *)
Definition HasPrefix (s prefix : string) : bool :=
  Nat.leb (String.length prefix) (String.length s) &&
  String.eqb (substring 0 (String.length prefix) s) prefix.

(** The filter at the top of the event loop of [watchCmd]: the events it
    drops without logging. *)
Definition event_filtered (name : string) : bool :=
  HasSuffix name aegis_suffix ||
  HasPrefix (Base name) "watch_log_" ||
  HasPrefix (Base name) "watch_detailed_" ||
  HasPrefix (Base name) "watch_basic_".

(** The log files of a watch session started at [timestamp]:
    [filepath.Join(filepath.Join("logs", timestamp),
    fmt.Sprintf("watch_detailed_%s.log", timestamp))] and its basic twin. *)
Definition timestampDir (timestamp : string) : string := Join "logs" timestamp.

Definition detailedLogName (timestamp : string) : string :=
  Join (timestampDir timestamp) ("watch_detailed_" ++ timestamp ++ ".log")%string.

Definition basicLogName (timestamp : string) : string :=
  Join (timestampDir timestamp) ("watch_basic_" ++ timestamp ++ ".log")%string.

(** [fileSnapshot] and the map [fileTracker.snapshots] (its mutex only
    orders the accesses of the single event loop). *)
Record fileSnapshot := mkSnapshot {
  snap_content : bytes;
  snap_hash : bytes;
  snap_lines : list string;
  snap_modTime : Z
}.

Definition tracker := string -> option fileSnapshot.

Definition newFileTracker : tracker := fun _ => None.

Record changeSummary := mkSummary {
  newSize : Z;
  lineSpec : string;
  hasChanges : bool
}.

Definition bytes_eqb (a b : bytes) : bool :=
  if list_eq_dec Byte.byte_eq_dec a b then true else false.

(** The loop over [oldLines] of [detectAndShowChanges]: the 1-based
    numbers of the changed lines and of the removed lines. *)
Definition changed_removed (oldLines newLines : list string) : list Z * list Z :=
  fold_left
    (fun (acc : list Z * list Z) (i : nat) =>
       let '(changedLines, removedLines) := acc in
       if Nat.leb (length newLines) i then (changedLines, removedLines ++ [Z.of_nat (i + 1)])
       else if String.eqb (nth i oldLines EmptyString) (nth i newLines EmptyString)
       then (changedLines, removedLines)
       else (changedLines ++ [Z.of_nat (i + 1)], removedLines))
    (seq 0 (length oldLines)) ([], []).

(** The loop [for i := len(oldLines); i < len(newLines); i++]. *)
Definition addedLines_of (oldLines newLines : list string) : list Z :=
  if Nat.ltb (length oldLines) (length newLines)
  then map (fun i => Z.of_nat (i + 1)) (seq (length oldLines) (length newLines - length oldLines))
  else [].

Fixpoint insert_sorted (x : Z) (l : list Z) : list Z :=
  match l with
  | [] => [x]
  | y :: r =>
      if Z.ltb x y then x :: l
      else if Z.eqb x y then l
      else y :: insert_sorted x r
  end.

(** [lineSet] filled from the three lists (skipping [line <= 0]), its keys
    collected and [sort.Ints]-ed: the distinct keys in increasing order,
    whatever order the map iteration visits them in. *)
Definition lineIndices_of (lists : list (list Z)) : list Z :=
  fold_left (fun acc line => if Z.leb line 0 then acc else insert_sorted line acc)
            (concat lists) [].

(** The positions (1-based) at which two line lists differ, a line being
    absent on one side counting as a difference. *)
Definition opt_string_eqb (a b : option string) : bool :=
  match a, b with
  | Some x, Some y => String.eqb x y
  | None, None => true
  | _, _ => false
  end.

Definition diff_positions (oldLines newLines : list string) : list Z :=
  map (fun i => Z.of_nat (i + 1))
      (filter (fun i => negb (opt_string_eqb (nth_error oldLines i) (nth_error newLines i)))
              (seq 0 (Nat.max (length oldLines) (length newLines)))).

Section Watch.
(** [sha256.Sum256] *)
Variable sha256 : bytes -> bytes.
(** [os.Stat(path)] then [info.ModTime()]; [None] when [os.Stat] fails. *)
Variable stat_modTime : string -> option Z.

(** [addSnapshot] of [fileTracker]: [None] is a returned error, the tracker
    being left as it was. *)
Definition addSnapshot (tr : tracker) (os0 : os_state) (path : string) : option tracker :=
  match read_file os0 path with
  | None => None
  | Some content =>
      match stat_modTime path with
      | None => None
      | Some mt =>
          let lines := Split_nl (bytes_to_string content) in
          let hash := sha256 content in
          Some (fun q => if String.eqb q path
                         then Some (mkSnapshot content hash lines mt) else tr q)
      end
  end.

(** The callers all drop [addSnapshot]'s error. *)
Definition addSnapshot_ignore (tr : tracker) (os0 : os_state) (path : string) : tracker :=
  match addSnapshot tr os0 path with Some t => t | None => tr end.

Definition removeSnapshot (tr : tracker) (path : string) : tracker :=
  fun q => if String.eqb q path then None else tr q.

Definition getSnapshot (tr : tracker) (path : string) : option fileSnapshot := tr path.

(** The walk function of [createInitialSnapshots]. *)
Definition snapshot_walk_fn (os0 : os_state) (dir : string)
    (path name : string) (info : node) (err : option walk_error) (tr : tracker)
    : tracker * walk_ret :=
  match err with
  | Some _ => (tr, WNil)
  | None =>
      if is_dir info then
        if shouldExcludeDir name && negb (String.eqb path dir) then (tr, WSkipDir)
        else (tr, WNil)
      else if is_symlink info || HasSuffix path aegis_suffix then (tr, WNil)
      else (addSnapshot_ignore tr os0 path, WNil)
  end.

(** [createInitialSnapshots(tracker, dir)]. *)
Definition createInitialSnapshots (tr : tracker) (os0 : os_state) (dir : string)
    (rootInfo : option node) : tracker * walk_ret :=
  Walk (snapshot_walk_fn os0 dir) dir rootInfo tr.

(** The text [%v] prints for the error [os.ReadFile(path)] returns. *)
Variable readFileErrText : string -> string.

(** The two messages [detectAndShowChanges] writes to the basic log. *)
Definition couldNotReadMsg (path : string) : string :=
  ("│ ⚠️  Could not read file: " ++ readFileErrText path ++ String newline "")%string.

Definition newFileMsg (n : nat) : string :=
  ("│ 📄 New file with " ++ fmt_d (Z.of_nat n) ++ " lines" ++ String newline (String newline ""))%string.

(** [detectAndShowChanges]: the tracker after it, the summary it returns
    and the messages it writes to the basic log, in order; what it prints
    and writes to the detailed log is left out. *)
Definition detectAndShowChanges (tr : tracker) (os0 : os_state) (path : string)
    : tracker * changeSummary * list string :=
  let oldSnapshot := getSnapshot tr path in
  match read_file os0 path with
  | None => (tr, mkSummary 0 "-" false, [couldNotReadMsg path])
  | Some content =>
      let newLines := Split_nl (bytes_to_string content) in
      let newSize := Z.of_nat (length content) in
      match oldSnapshot with
      | None =>
          (addSnapshot_ignore tr os0 path,
           mkSummary newSize (formatLineRangeFromCount (Z.of_nat (length newLines)))
                     (Nat.ltb 0 (length newLines)),
           [newFileMsg (length newLines)])
      | Some old =>
          if bytes_eqb (snap_hash old) (sha256 content)
          then (tr, mkSummary newSize "-" false, [])
          else
            let oldLines := snap_lines old in
            let '(changedLines, removedLines) := changed_removed oldLines newLines in
            let addedLines := addedLines_of oldLines newLines in
            let lineIndices := lineIndices_of [changedLines; addedLines; removedLines] in
            let ls := formatLineRanges lineIndices in
            let ls' := if String.eqb ls "" then "-"%string else ls in
            (addSnapshot_ignore tr os0 path,
             mkSummary newSize ls' (Nat.ltb 0 (length lineIndices)), [])
      end
  end.

(** The [fsnotify.Write] case of the event loop: the tracker after it and
    everything written to the basic log, in order. *)
Definition on_write_event (tr : tracker) (os0 : os_state) (path relPath timestamp : string)
    : tracker * list string :=
  let '(tr', summary, basicMsgs) := detectAndShowChanges tr os0 path in
  if hasChanges summary then
    let ls := if String.eqb (lineSpec summary) "" then "-"%string else lineSpec summary in
    (tr', basicMsgs ++
          [("[Modified] " ++ relPath ++ " | " ++ timestamp ++ " | size " ++
            fmt_d (newSize summary) ++ " bytes | lines " ++ ls ++ String newline "")%string])
  else (tr', basicMsgs).

(** Every snapshot holds the hash and the lines of its own content, as
    [addSnapshot] computes them. *)
Definition tracker_wf (tr : tracker) : Prop :=
  forall p s, tr p = Some s ->
    snap_hash s = sha256 (snap_content s) /\
    snap_lines s = Split_nl (bytes_to_string (snap_content s)).
End Watch.

(** [showNewFileContent], with what it prints left out. Its five read
    attempts see the same file state, so they all return what the first
    one does. *)
Definition showNewFileContent (os0 : os_state) (path : string) : changeSummary :=
  match read_file os0 path with
  | None => mkSummary 0 "-" false
  | Some content =>
      let lines := Split_nl (bytes_to_string content) in
      mkSummary (Z.of_nat (length content))
                (formatLineRangeFromCount (Z.of_nat (length lines)))
                (Nat.ltb 0 (length lines))
  end.

(** [strings.Join(lines, "\n")], the inverse of [Split_nl]. *)
Fixpoint Join_nl (l : list string) : string :=
  match l with
  | [] => EmptyString
  | [x] => x
  | x :: r => (x ++ String newline (Join_nl r))%string
  end.

(** [float64(n)/float64(n) > 0.85] for every length [n] of the window
    [isTextFile] inspects. *)
Definition self_ratio_ok : bool :=
  forallb (fun n => PrimFloat.ltb (0.85)%float
                      (PrimFloat.div (float64_of_int n) (float64_of_int n)))
          (seq 1 512).

(** ** Concrete inputs for the event loop and whole-tree runs *)

(** A stand-in for [sha256.Sum256] and for [os.Stat(path).ModTime()]. *)
Definition ex_hash (b : bytes) : bytes := b.
Definition ex_modTime (p : string) : option Z := Some 0%Z.
Definition ex_readErr (p : string) : string := ("open " ++ p ++ ": permission denied")%string.

Definition ex_edited : bytes := string_to_bytes ("hello" ++ String newline "world")%string.

Definition ex_snapshot : fileSnapshot :=
  mkSnapshot ex_plaintext (ex_hash ex_plaintext) (Split_nl (bytes_to_string ex_plaintext)) 0%Z.

Definition ex_tracker : tracker :=
  fun q => if String.eqb q "d/a.txt"%string then Some ex_snapshot else None.

Definition ex_watch_os (content : bytes) : os_state :=
  mk_os (fs_of [("d/a.txt"%string, content)]) [].

Definition ex_watch_tree : node :=
  DirNode [("a.txt"%string, Reg); ("a.aegis"%string, Reg); (".git"%string, DirNode [("x"%string, Reg)])].

Definition ex_sealed_tree : node :=
  DirNode [("a.aegis"%string, Reg); ("l"%string, Symlink);
           ("vendor"%string, DirNode [("b.aegis"%string, Reg); ("c.aegis"%string, Reg)])].

Definition ex_plain_tree : node :=
  DirNode [("a.txt"%string, Reg); ("l"%string, Symlink);
           ("vendor"%string, DirNode [("b.txt"%string, Reg)])].

Definition ex_roundtrip_os : os_state :=
  mk_os (fs_of [("d/a.txt"%string, ex_plaintext)]) (entropy_of 28).

(** * Lemmas *)

Lemma null_index_from_app (ext pt : bytes) (i : nat) :
  ~ In Byte.x00 ext ->
  null_index_from (ext ++ Byte.x00 :: pt) i = Some (i + length ext).
Proof.
  revert i; induction ext as [|b ext IH]; intros i Hn; simpl.
  - rewrite Nat.add_0_r; reflexivity.
  - destruct (Byte.eqb b Byte.x00) eqn:E.
    + apply Byte.byte_dec_bl in E; subst; exfalso; apply Hn; left; reflexivity.
    + rewrite IH by (intro H; apply Hn; right; exact H).
      f_equal; lia.
Qed.

Lemma null_index_envelope (ext pt : bytes) :
  ~ In Byte.x00 ext -> null_index (envelope ext pt) = Some (length ext).
Proof. intros Hn; unfold null_index, envelope; rewrite null_index_from_app; auto. Qed.

Lemma firstn_length_app (a b : bytes) : firstn (length a) (a ++ b) = a.
Proof. induction a as [|x a IH]; simpl; [reflexivity|rewrite IH; reflexivity]. Qed.

Lemma skipn_length_app (a b : bytes) : skipn (length a) (a ++ b) = b.
Proof. induction a as [|x a IH]; simpl; [reflexivity|exact IH]. Qed.

Lemma skipn_length_app_plus (a b : bytes) (n : nat) :
  skipn (length a + n) (a ++ b) = skipn n b.
Proof. induction a as [|x a IH]; simpl; [reflexivity|exact IH]. Qed.

Lemma seal_final_split (c : Crypto) (g : Aead c) (salt nonce ext pt : bytes) :
  length salt = 16 -> length nonce = 12 ->
  firstn 16 (seal_final c g salt nonce ext pt) = salt /\
  firstn 12 (skipn 16 (seal_final c g salt nonce ext pt)) = nonce /\
  skipn (16 + 12) (seal_final c g salt nonce ext pt) = gcm_seal g nonce (envelope ext pt) /\
  16 + 12 <= length (seal_final c g salt nonce ext pt).
Proof.
  intros Hs Hn; unfold seal_final.
  repeat split.
  - rewrite <- Hs; apply firstn_length_app.
  - rewrite <- Hs, skipn_length_app, <- Hn; apply firstn_length_app.
  - rewrite <- Hs, <- Hn, skipn_length_app_plus, skipn_length_app; reflexivity.
  - rewrite !length_app; lia.
Qed.

Lemma unseal_data_unfold (c : Crypto) (pw data : bytes) (g : Aead c) :
  16 + 12 <= length data ->
  derive_aead c pw (firstn 16 data) = Some g ->
  unseal_data c pw data =
    match gcm_open g (firstn 12 (skipn 16 data)) (skipn (16 + 12) data) with
    | None => UAuthFailed
    | Some env =>
        match null_index env with
        | None => ULegacy env
        | Some i => UOk (firstn i env) (skipn (S i) env)
        end
    end.
Proof.
  intros Hlen Hd; unfold unseal_data, derive_aead in *.
  replace (Nat.ltb (length data) (16 + 12)) with false
    by (symmetry; apply Nat.ltb_ge; lia).
  destruct (scrypt_key c pw (firstn 16 data)) as [key|]; [|discriminate].
  destruct (aes_new_cipher c key) as [block|]; [|discriminate].
  rewrite Hd; unfold gcmStandardNonceSize.
  replace (Nat.ltb (length data) (16 + 12)) with false
    by (symmetry; apply Nat.ltb_ge; lia).
  reflexivity.
Qed.

Module ToyFacts.
  Import Toy.

Lemma decode_encode (k m : bytes) : decode (encode k ++ m) = Some (k, m).
  Proof. induction k as [|b k IH]; simpl; [reflexivity|rewrite IH; reflexivity]. Qed.

Lemma toy_open_seal (g : Aead Toy.crypto) (nonce m : bytes) :
    length nonce = gcmStandardNonceSize ->
    gcm_open g nonce (gcm_seal g nonce m) = Some m.
  Proof.
    intros _; simpl; unfold open; rewrite decode_encode.
    destruct (list_eq_dec Byte.byte_eq_dec g g); [reflexivity|contradiction].
  Qed.

Lemma toy_derive (pw salt : bytes) : derive_aead Toy.crypto pw salt = Some pw.
  Proof. reflexivity. Qed.

Lemma toy_tag_rejects_other_password (pw1 pw2 salt : bytes) (g1 g2 : Aead Toy.crypto)
      (nonce m : bytes) :
    pw1 <> pw2 ->
    derive_aead Toy.crypto pw1 salt = Some g1 ->
    derive_aead Toy.crypto pw2 salt = Some g2 ->
    gcm_open g2 nonce (gcm_seal g1 nonce m) = None.
  Proof.
    intros Hne H1 H2; simpl in H1, H2; injection H1 as <-; injection H2 as <-.
    simpl; unfold open; rewrite decode_encode.
    destruct (list_eq_dec Byte.byte_eq_dec pw2 pw1); [congruence|reflexivity].
  Qed.
End ToyFacts.

(** * Claims *)

Section RoundTrip.
Variable c : Crypto.

  (** [gcm.Open] inverts [gcm.Seal] under the same AEAD and nonce. *)
Hypothesis gcm_open_seal : forall (g : Aead c) (nonce m : bytes),
    length nonce = gcmStandardNonceSize -> gcm_open g nonce (gcm_seal g nonce m) = Some m.

  (** C1 (round-trip). For every plaintext [pt] (empty included), every
      extension [ext] without a 0x00 byte, every password [pw] and every
      salt and nonce of the sizes [sealCmd] draws, if the key derivation and
      AEAD construction succeed for [pw] and the salt, then decrypting the
      artifact [salt || nonce || gcm.Seal(ext || 0x00 || pt)] with the same
      password gives back exactly [ext] and [pt]. *)
Theorem unseal_seal_roundtrip (pw salt nonce ext pt : bytes) (g : Aead c) :
    length salt = 16 ->
    length nonce = gcmStandardNonceSize ->
    derive_aead c pw salt = Some g ->
    ~ In Byte.x00 ext ->
    unseal_data c pw (seal_final c g salt nonce ext pt) = UOk ext pt.
  Proof.
    intros Hs Hn Hd Hext.
    destruct (seal_final_split c g salt nonce ext pt Hs Hn) as (E1 & E2 & E3 & Hlen).
    rewrite (unseal_data_unfold c pw _ g Hlen) by (rewrite E1; exact Hd).
    rewrite E2, E3, gcm_open_seal by exact Hn.
    rewrite null_index_envelope by exact Hext.
    unfold envelope; rewrite firstn_length_app.
    replace (S (length ext)) with (length ext + 1) by lia.
    rewrite skipn_length_app_plus; reflexivity.
  Qed.
End RoundTrip.

Section WrongPassword.
Variable c : Crypto.

  (** The authentication tag of GCM under the key of one password is
      rejected under the key another password derives from the same salt. *)
Hypothesis gcm_tag_rejects_other_password :
    forall (pw1 pw2 salt : bytes) (g1 g2 : Aead c) (nonce m : bytes),
      pw1 <> pw2 ->
      derive_aead c pw1 salt = Some g1 ->
      derive_aead c pw2 salt = Some g2 ->
      gcm_open g2 nonce (gcm_seal g1 nonce m) = None.

  (** C2 (wrong-password rejection). An artifact sealed under [pw1], opened
      with a different password [pw2] (whose key derivation succeeds),
      yields [UAuthFailed], the failure of [gcm.Open]; and [unseal_data]
      looks at the password only through [scrypt.Key]: two passwords that
      derive the same key from an artifact's salt get the same result, so
      there is no other password check. *)
Theorem unseal_wrong_password (pw1 pw2 salt nonce ext pt : bytes) (g1 g2 : Aead c) :
    pw1 <> pw2 ->
    length salt = 16 ->
    length nonce = gcmStandardNonceSize ->
    derive_aead c pw1 salt = Some g1 ->
    derive_aead c pw2 salt = Some g2 ->
    unseal_data c pw2 (seal_final c g1 salt nonce ext pt) = UAuthFailed /\
    (forall pw pw' data,
        scrypt_key c pw (firstn 16 data) = scrypt_key c pw' (firstn 16 data) ->
        unseal_data c pw data = unseal_data c pw' data).
  Proof.
    intros Hne Hs Hn H1 H2; split.
    - destruct (seal_final_split c g1 salt nonce ext pt Hs Hn) as (E1 & E2 & E3 & Hlen).
      rewrite (unseal_data_unfold c pw2 _ g2 Hlen) by (rewrite E1; exact H2).
      rewrite E2, E3.
      rewrite (gcm_tag_rejects_other_password pw1 pw2 salt g1 g2) by assumption.
      reflexivity.
    - intros pw pw' data Hk; unfold unseal_data; rewrite Hk; reflexivity.
  Qed.
End WrongPassword.

(** C8 (malformed-input guard). An artifact shorter than 16 + 12 bytes is
    [UMalformed] whatever the primitives are, so the outcome does not
    involve [scrypt.Key] at all; the walk function counts the file as
    failed, changes nothing else and lets the walk go on. *)
Theorem unseal_short_artifact_malformed (c : Crypto) (env : os_env) (pw data : bytes) :
  length data < 16 + gcmStandardNonceSize ->
  unseal_data c pw data = UMalformed /\
  (forall path name info st,
      is_dir info = false ->
      HasSuffix path aegis_suffix = true ->
      read_file (unseal_os st) path = Some data ->
      unseal_walk_fn c env pw path name info None st = (failed st (unseal_os st), WNil)).
Proof.
  intros Hlen.
  assert (Hm : unseal_data c pw data = UMalformed).
  { unfold unseal_data; replace (Nat.ltb (length data) (16 + 12)) with true
      by (symmetry; apply Nat.ltb_lt; exact Hlen); reflexivity. }
  split; [exact Hm|].
  intros path name info st Hd Hs Hr; unfold unseal_walk_fn.
  rewrite Hd, Hs, Hr, Hm; reflexivity.
Qed.

Lemma unseal_seal_roundtrip_witness :
  length ex_salt = 16 /\ length ex_nonce = gcmStandardNonceSize /\
  derive_aead Toy.crypto ex_password ex_salt = Some ex_password /\
  ~ In Byte.x00 ex_ext /\
  unseal_data Toy.crypto ex_password
    (seal_final Toy.crypto ex_password ex_salt ex_nonce ex_ext ex_plaintext)
  = UOk ex_ext ex_plaintext.
Proof.
  assert (Hn : ~ In Byte.x00 ex_ext) by (simpl; intuition discriminate).
  split; [reflexivity|]; split; [reflexivity|]; split; [reflexivity|]; split; [exact Hn|].
  apply (unseal_seal_roundtrip Toy.crypto ToyFacts.toy_open_seal); [reflexivity|reflexivity|reflexivity|exact Hn].
Defined.

Lemma unseal_wrong_password_witness :
  unseal_data Toy.crypto ex_other_password
    (seal_final Toy.crypto ex_password ex_salt ex_nonce ex_ext ex_plaintext) = UAuthFailed.
Proof.
  apply (unseal_wrong_password Toy.crypto ToyFacts.toy_tag_rejects_other_password
           ex_password ex_other_password ex_salt ex_nonce ex_ext ex_plaintext
           ex_password ex_other_password);
    [discriminate|reflexivity|reflexivity|reflexivity|reflexivity].
Defined.

Lemma unseal_short_artifact_malformed_witness :
  unseal_data Toy.crypto ex_password ex_salt = UMalformed.
Proof.
  refine (proj1 (unseal_short_artifact_malformed Toy.crypto env_all_ok ex_password ex_salt _)).
  vm_compute; lia.
Defined.

(** ** The loop of [walk] over a directory's entries *)

Lemma node_eq_NoStat (n : node) : {n = NoStat} + {n <> NoStat}.
Proof. destruct n; [right; discriminate..|left; reflexivity]. Qed.

Section WalkLoop.
Context {St : Type}.
Variable f : string -> string -> node -> option walk_error -> St -> St * walk_ret.

(** The [for _, name := range names] loop of [walk], as a function of its own. *)
Definition walk_names (path : string) : list (string * node) -> St -> St * walk_ret :=
  fix walk_names (l : list (string * node)) (s : St) : St * walk_ret :=
    match l with
    | [] => (s, WNil)
    | (nm, child) :: rest =>
        match child with
        | NoStat =>
            let '(s2, r2) := f (Join path nm) nm NoStat (Some ErrLstat) s in
            match r2 with
            | WErr e => (s2, WErr e)
            | _ => walk_names rest s2
            end
        | _ =>
            let '(s2, r2) := walk f (Join path nm) nm child s in
            match r2 with
            | WNil => walk_names rest s2
            | WSkipDir => if is_dir child then walk_names rest s2 else (s2, WSkipDir)
            | WErr e => (s2, WErr e)
            end
        end
    end.

Lemma walk_DirNode (path name : string) (ch : list (string * node)) (st : St) :
  walk f path name (DirNode ch) st =
  let '(st1, r) := f path name (DirNode ch) None st in
  match r with WNil => walk_names path ch st1 | _ => (st1, r) end.
Proof. reflexivity. Qed.

Lemma walk_names_nil (path : string) (s : St) : walk_names path [] s = (s, WNil).
Proof. reflexivity. Qed.

Lemma walk_names_nostat (path nm : string) (rest : list (string * node)) (s : St) :
  walk_names path ((nm, NoStat) :: rest) s =
  let '(s2, r2) := f (Join path nm) nm NoStat (Some ErrLstat) s in
  match r2 with WErr e => (s2, WErr e) | _ => walk_names path rest s2 end.
Proof. reflexivity. Qed.

Lemma walk_names_stat (path nm : string) (child : node) (rest : list (string * node)) (s : St) :
  child <> NoStat ->
  walk_names path ((nm, child) :: rest) s =
  let '(s2, r2) := walk f (Join path nm) nm child s in
  match r2 with
  | WNil => walk_names path rest s2
  | WSkipDir => if is_dir child then walk_names path rest s2 else (s2, WSkipDir)
  | WErr e => (s2, WErr e)
  end.
Proof. intros H; destruct child; [reflexivity..|contradiction]. Qed.

Lemma walk_leaf (path name : string) (n : node) (st : St) :
  is_dir n = false -> n <> NoStat -> walk f path name n st = f path name n None st.
Proof. intros H1 H2; destruct n; [reflexivity|reflexivity|discriminate|discriminate|contradiction]. Qed.

End WalkLoop.

(** ** Walk lemmas for the seal walk function *)

Lemma seal_walk_fn_excluded (c : Crypto) (env : os_env) (pw : bytes)
    (path name : string) (ch : list (string * node)) (st : seal_state) :
  excludeSet name = true ->
  seal_walk_fn c env pw path name (DirNode ch) None st = (st, WSkipDir).
Proof. intros H; simpl; rewrite H; reflexivity. Qed.

Lemma prune_excluded_DirNode (name : string) (ch : list (string * node)) :
  excludeSet name = false ->
  prune_excluded name (DirNode ch) = DirNode (map (fun e => (fst e, prune_excluded (fst e) (snd e))) ch).
Proof.
  intros H; simpl; rewrite H; f_equal.
  induction ch as [|[nm child] rest IH]; [reflexivity|simpl; rewrite IH; reflexivity].
Qed.

Lemma prune_excluded_NoStat (name : string) (n : node) :
  prune_excluded name n = NoStat <-> n = NoStat.
Proof. destruct n; simpl; [split; congruence..| |split; congruence|split; congruence].
  destruct (excludeSet name); split; congruence. Qed.

Lemma walk_seal_prune (c : Crypto) (env : os_env) (pw : bytes) :
  forall (n : node) (path name : string) (st : seal_state),
  walk (seal_walk_fn c env pw) path name (prune_excluded name n) st =
  walk (seal_walk_fn c env pw) path name n st.
Proof.
  fix IH 1; intros n path name st.
  destruct n as [| |ch| |]; try reflexivity.
  destruct (excludeSet name) eqn:Ex.
  - simpl prune_excluded; rewrite Ex, !walk_DirNode; simpl; rewrite Ex; reflexivity.
  - rewrite prune_excluded_DirNode by exact Ex; rewrite !walk_DirNode.
    simpl seal_walk_fn; rewrite Ex.
    revert st; induction ch as [|[nm child] rest IHl]; intros st; [reflexivity|].
    cbn [map fst snd].
    destruct (node_eq_NoStat child) as [E|E].
    + subst child; simpl prune_excluded; rewrite !walk_names_nostat.
      destruct (seal_walk_fn c env pw (Join path nm) nm NoStat (Some ErrLstat) st) as [s2 r2].
      destruct r2; [apply IHl|apply IHl|reflexivity].
    + rewrite !walk_names_stat by (try rewrite prune_excluded_NoStat; exact E).
      rewrite IH.
      destruct (walk (seal_walk_fn c env pw) (Join path nm) nm child st) as [s2 r2].
      destruct r2; [apply IHl| |reflexivity].
      assert (Hd : is_dir (prune_excluded nm child) = is_dir child)
        by (destruct child; simpl; try reflexivity; destruct (excludeSet nm); reflexivity).
      rewrite Hd; destruct (is_dir child); [apply IHl|reflexivity].
Qed.

(** ** Path lemmas *)

Lemma las_app (a b : string) :
  list_ascii_of_string (a ++ b) = list_ascii_of_string a ++ list_ascii_of_string b.
Proof. induction a as [|ch a IH]; simpl; [reflexivity|rewrite IH; reflexivity]. Qed.

Lemma ext_scan_plain (S rest acc : list ascii) :
  forallb plain_char S = true -> ext_scan (rev S ++ rest) acc = ext_scan rest (S ++ acc).
Proof.
  revert rest acc; induction S as [|ch S IH]; intros rest acc H; [reflexivity|].
  simpl in H; apply andb_true_iff in H as [Hc HS].
  unfold plain_char in Hc; apply andb_true_iff in Hc as [H1 H2].
  apply negb_true_iff in H1, H2.
  simpl; rewrite <- app_assoc; simpl; rewrite IH by exact HS; simpl.
  rewrite H1, H2; reflexivity.
Qed.

Lemma base_scan_no_slash (S rest acc : list ascii) :
  forallb no_slash_char S = true -> base_scan (rev S ++ rest) acc = base_scan rest (S ++ acc).
Proof.
  revert rest acc; induction S as [|ch S IH]; intros rest acc H; [reflexivity|].
  simpl in H; apply andb_true_iff in H as [Hc HS]; apply negb_true_iff in Hc.
  simpl; rewrite <- app_assoc; simpl; rewrite IH by exact HS; simpl.
  rewrite Hc; reflexivity.
Qed.

Lemma dir_scan_no_slash (S rest : list ascii) :
  forallb no_slash_char S = true -> dir_scan (rev S ++ rest) = dir_scan rest.
Proof.
  revert rest; induction S as [|ch S IH]; intros rest H; [reflexivity|].
  simpl in H; apply andb_true_iff in H as [Hc HS]; apply negb_true_iff in Hc.
  simpl; rewrite <- app_assoc; simpl; rewrite IH by exact HS; simpl.
  rewrite Hc; reflexivity.
Qed.

Lemma las_join (p n : string) :
  list_ascii_of_string (Join p n) = list_ascii_of_string p ++ slash :: list_ascii_of_string n.
Proof. unfold Join; rewrite las_app; reflexivity. Qed.

Lemma plain_no_slash (s : string) : ext_body_ok s = true -> name_ok s = true.
Proof.
  unfold ext_body_ok, name_ok; induction (list_ascii_of_string s) as [|ch l IH];
    simpl; [reflexivity|].
  intros H; apply andb_true_iff in H as [Hc Hl]; apply andb_true_iff; split.
  - unfold plain_char, no_slash_char in *; destruct (Ascii.eqb ch slash); simpl in *; auto.
  - apply IH; exact Hl.
Qed.

Lemma Base_Join (p n : string) : name_ok n = true -> Base (Join p n) = n.
Proof.
  intros Hn; unfold Base; rewrite las_join, rev_app_distr; simpl.
  rewrite <- app_assoc, base_scan_no_slash by exact Hn; simpl.
  rewrite app_nil_r; apply string_of_list_ascii_of_string.
Qed.

Lemma Dir_Join (p n : string) : p <> EmptyString -> name_ok n = true -> Dir (Join p n) = p.
Proof.
  intros Hp Hn; unfold Dir; rewrite las_join, rev_app_distr; simpl.
  rewrite <- app_assoc, dir_scan_no_slash by exact Hn; simpl.
  rewrite rev_involutive.
  destruct (rev (list_ascii_of_string p)) eqn:E.
  - exfalso; apply Hp; destruct p; [reflexivity|simpl in E].
    apply app_eq_nil in E as [_ E]; discriminate.
  - apply string_of_list_ascii_of_string.
Qed.

Lemma Ext_Join (p b s : string) :
  ext_body_ok s = true -> Ext (Join p (b ++ String dot s)) = String dot s.
Proof.
  intros Hs; unfold Ext; rewrite las_join, las_app; simpl.
  replace (list_ascii_of_string p ++ slash :: list_ascii_of_string b ++ dot :: list_ascii_of_string s)
    with ((list_ascii_of_string p ++ slash :: list_ascii_of_string b) ++ [dot] ++ list_ascii_of_string s)
    by (rewrite <- app_assoc; reflexivity).
  rewrite app_assoc, rev_app_distr, rev_unit, ext_scan_plain by exact Hs.
  simpl; rewrite app_nil_r, string_of_list_ascii_of_string; reflexivity.
Qed.

Lemma substring_prefix (x y : string) : substring 0 (String.length x) (x ++ y) = x.
Proof. induction x as [|ch x IH]; simpl; [destruct y; reflexivity|rewrite IH; reflexivity]. Qed.

Lemma substring_whole (y : string) : substring 0 (String.length y) y = y.
Proof. induction y as [|ch y IH]; simpl; [reflexivity|rewrite IH; reflexivity]. Qed.

Lemma substring_after (x y : string) (m : nat) :
  substring (String.length x) m (x ++ y) = substring 0 m y.
Proof. induction x as [|ch x IH]; simpl; [reflexivity|exact IH]. Qed.

Lemma length_append (x y : string) :
  String.length (x ++ y) = String.length x + String.length y.
Proof. induction x as [|ch x IH]; simpl; [reflexivity|rewrite IH; reflexivity]. Qed.

Lemma HasSuffix_append (x y : string) : HasSuffix (x ++ y) y = true.
Proof.
  unfold HasSuffix; rewrite length_append.
  replace (String.length x + String.length y - String.length y) with (String.length x) by lia.
  rewrite substring_after, substring_whole, String.eqb_refl.
  apply andb_true_iff; split; [apply Nat.leb_le; lia|reflexivity].
Qed.

Lemma TrimSuffix_append (x y : string) : TrimSuffix (x ++ y) y = x.
Proof.
  unfold TrimSuffix; rewrite HasSuffix_append, length_append.
  replace (String.length x + String.length y - String.length y) with (String.length x) by lia.
  apply substring_prefix.
Qed.

Lemma append_cancel_l (x y z : string) : (x ++ y = x ++ z)%string -> y = z.
Proof. induction x as [|ch x IH]; simpl; [auto|intros H; injection H; exact IH]. Qed.

Lemma seal_out_path_Join (p b s : string) :
  p <> EmptyString -> name_ok b = true -> ext_body_ok s = true ->
  seal_out_path (Join p (b ++ String dot s)) = Join p (b ++ aegis_suffix).
Proof.
  intros Hp Hb Hs.
  assert (Hn : name_ok (b ++ String dot s) = true).
  { unfold name_ok in *; rewrite las_app, forallb_app, Hb; simpl.
    apply plain_no_slash in Hs; exact Hs. }
  unfold seal_out_path; rewrite Dir_Join, Base_Join, Ext_Join, TrimSuffix_append by assumption.
  reflexivity.
Qed.

(** ** One regular file through the seal walk function *)

Lemma rand_read_ok (n : nat) (st : os_state) :
  n <= length (entropy st) ->
  rand_read n st = Some (firstn n (entropy st), mk_os (files st) (skipn n (entropy st))).
Proof. intros H; unfold rand_read; apply Nat.leb_le in H; rewrite H; reflexivity. Qed.

Lemma seal_walk_fn_reg_sealed (c : Crypto) (env : os_env) (pw : bytes)
    (path name : string) (st : seal_state) (pt : bytes) (g : Aead c) :
  HasSuffix path aegis_suffix = false ->
  read_file (seal_os st) path = Some pt ->
  16 + gcmStandardNonceSize <= length (entropy (seal_os st)) ->
  derive_aead c pw (firstn 16 (entropy (seal_os st))) = Some g ->
  write_ok env (seal_out_path path) = true ->
  let e := entropy (seal_os st) in
  let salt := firstn 16 e in
  let nonce := firstn gcmStandardNonceSize (skipn 16 e) in
  let final := seal_final c g salt nonce (string_to_bytes (Ext path)) pt in
  let os3 := update_file (mk_os (files (seal_os st)) (skipn gcmStandardNonceSize (skipn 16 e)))
                         (seal_out_path path) (Some final) in
  seal_walk_fn c env pw path name Reg None st =
    (mk_seal (match remove_file env os3 path with Some o => o | None => os3 end)
             (S (filesSealed st)) (filesSkipped st), WNil).
Proof.
  intros Hsuf Hread Hlen Hd Hw e salt nonce final os3.
  unfold seal_walk_fn; rewrite Hsuf, Hread.
  rewrite rand_read_ok by lia.
  unfold derive_aead in Hd.
  destruct (scrypt_key c pw (firstn 16 (entropy (seal_os st)))) as [key|]; [|discriminate].
  destruct (aes_new_cipher c key) as [block|]; [|discriminate].
  rewrite Hd, rand_read_ok by (cbn [entropy]; rewrite length_skipn; unfold gcmStandardNonceSize in *; lia).
  simpl; unfold write_file; rewrite Hw; reflexivity.
Qed.

Lemma walk_dir_two_files {St : Type}
    (f : string -> string -> node -> option walk_error -> St -> St * walk_ret)
    (path name nm1 nm2 : string) (st st1 st2 st3 : St) :
  f path name (DirNode [(nm1, Reg); (nm2, Reg)]) None st = (st1, WNil) ->
  f (Join path nm1) nm1 Reg None st1 = (st2, WNil) ->
  f (Join path nm2) nm2 Reg None st2 = (st3, WNil) ->
  walk f path name (DirNode [(nm1, Reg); (nm2, Reg)]) st = (st3, WNil).
Proof. intros H0 H1 H2; simpl; rewrite H0, H1, H2; reflexivity. Qed.

Lemma append_assoc_s (x y z : string) : (x ++ (y ++ z) = (x ++ y) ++ z)%string.
Proof. induction x as [|ch x IH]; simpl; [reflexivity|rewrite IH; reflexivity]. Qed.

Lemma HasSuffix_Join_aegis (p b : string) :
  HasSuffix (Join p (b ++ aegis_suffix)) aegis_suffix = true.
Proof. unfold Join; rewrite !append_assoc_s; apply HasSuffix_append. Qed.

(** C10 (sealed-output name collision). Two regular files [b.s1] and
    [b.s2] of one directory [p] ([s1 <> s2], plain extension bodies) get
    the same sealed name [p/b.aegis]; sealing both in one run (all reads,
    random draws, key derivations, writes and removals succeeding) reports
    two sealed files, removes both sources, and leaves at [p/b.aegis] only
    the artifact of the second file: the first one's content is gone. *)
Theorem seal_extension_collision (c : Crypto) (env : os_env) (pw : bytes)
    (p b s1 s2 : string) (os0 : os_state) (pt1 pt2 : bytes) :
  p <> EmptyString ->
  excludeSet (os_basename p) = false ->
  name_ok b = true -> ext_body_ok s1 = true -> ext_body_ok s2 = true -> s1 <> s2 ->
  HasSuffix (Join p (b ++ String dot s1)) aegis_suffix = false ->
  HasSuffix (Join p (b ++ String dot s2)) aegis_suffix = false ->
  files os0 (Join p (b ++ String dot s1)) = Some pt1 ->
  files os0 (Join p (b ++ String dot s2)) = Some pt2 ->
  2 * (16 + gcmStandardNonceSize) <= length (entropy os0) ->
  (forall salt, derive_aead c pw salt <> None) ->
  write_ok env (Join p (b ++ aegis_suffix)) = true ->
  remove_ok env (Join p (b ++ String dot s1)) = true ->
  remove_ok env (Join p (b ++ String dot s2)) = true ->
  seal_out_path (Join p (b ++ String dot s1)) = Join p (b ++ aegis_suffix) /\
  seal_out_path (Join p (b ++ String dot s2)) = Join p (b ++ aegis_suffix) /\
  exists os' salt nonce (g : Aead c),
    seal_run c env pw p (Some (DirNode [((b ++ String dot s1)%string, Reg);
                                        ((b ++ String dot s2)%string, Reg)])) os0
      = (os', SealComplete 2 0) /\
    files os' (Join p (b ++ String dot s1)) = None /\
    files os' (Join p (b ++ String dot s2)) = None /\
    files os' (Join p (b ++ aegis_suffix)) =
      Some (seal_final c g salt nonce (string_to_bytes (String dot s2)) pt2).
Proof.
  intros Hp Hex Hb Hs1 Hs2 Hne Hsuf1 Hsuf2 Hr1 Hr2 Hlen Hd Hw Hrm1 Hrm2.
  set (path1 := Join p (b ++ String dot s1)) in *.
  set (path2 := Join p (b ++ String dot s2)) in *.
  set (out := Join p (b ++ aegis_suffix)) in *.
  assert (O1 : seal_out_path path1 = out) by (apply seal_out_path_Join; assumption).
  assert (O2 : seal_out_path path2 = out) by (apply seal_out_path_Join; assumption).
  assert (D1 : String.eqb path1 out = false).
  { apply String.eqb_neq; intros E; rewrite E in Hsuf1; unfold out in Hsuf1.
    rewrite HasSuffix_Join_aegis in Hsuf1; discriminate. }
  assert (D2 : String.eqb path2 out = false).
  { apply String.eqb_neq; intros E; rewrite E in Hsuf2; unfold out in Hsuf2.
    rewrite HasSuffix_Join_aegis in Hsuf2; discriminate. }
  assert (D12 : String.eqb path2 path1 = false).
  { apply String.eqb_neq; intros E; apply Hne; unfold path1, path2, Join in E.
    apply append_cancel_l, append_cancel_l, append_cancel_l in E.
    injection E; auto. }
  split; [exact O1|]; split; [exact O2|].
  set (e := entropy os0) in *.
  destruct (derive_aead c pw (firstn 16 e)) as [g1|] eqn:G1; [|exfalso; eapply Hd; exact G1].
  set (e2 := skipn gcmStandardNonceSize (skipn 16 e)).
  destruct (derive_aead c pw (firstn 16 e2)) as [g2|] eqn:G2; [|exfalso; eapply Hd; exact G2].
  set (final1 := seal_final c g1 (firstn 16 e) (firstn gcmStandardNonceSize (skipn 16 e))
                   (string_to_bytes (Ext path1)) pt1).
  set (os1 := update_file (update_file (mk_os (files os0) e2) out (Some final1)) path1 None).
  assert (S1 : seal_walk_fn c env pw path1 (b ++ String dot s1)%string Reg None (mk_seal os0 0 0)
               = (mk_seal os1 1 0, WNil)).
  { rewrite (seal_walk_fn_reg_sealed c env pw path1 _ (mk_seal os0 0 0) pt1 g1);
      cbn [seal_os filesSealed filesSkipped entropy];
      [| assumption | exact Hr1 | unfold gcmStandardNonceSize, e in *; lia | exact G1
       | rewrite O1; exact Hw].
    rewrite O1; unfold remove_file; rewrite Hrm1; reflexivity. }
  assert (R2 : read_file os1 path2 = Some pt2).
  { unfold read_file, os1, update_file; cbn [files]; rewrite D12, D2; exact Hr2. }
  assert (L2 : 16 + gcmStandardNonceSize <= length (entropy os1)).
  { unfold os1, e2; cbn [entropy update_file]; rewrite !length_skipn.
    unfold gcmStandardNonceSize in *; lia. }
  set (final2 := seal_final c g2 (firstn 16 e2) (firstn gcmStandardNonceSize (skipn 16 e2))
                   (string_to_bytes (Ext path2)) pt2).
  set (os2 := update_file (update_file (mk_os (files os1) (skipn gcmStandardNonceSize (skipn 16 e2)))
                                       out (Some final2)) path2 None).
  assert (S2 : seal_walk_fn c env pw path2 (b ++ String dot s2)%string Reg None (mk_seal os1 1 0)
               = (mk_seal os2 2 0, WNil)).
  { rewrite (seal_walk_fn_reg_sealed c env pw path2 _ (mk_seal os1 1 0) pt2 g2);
      cbn [seal_os filesSealed filesSkipped];
      [| assumption | exact R2 | exact L2 | exact G2 | rewrite O2; exact Hw].
    rewrite O2; unfold remove_file; rewrite Hrm2; reflexivity. }
  assert (S0 : seal_walk_fn c env pw p (os_basename p)
                 (DirNode [((b ++ String dot s1)%string, Reg); ((b ++ String dot s2)%string, Reg)])
                 None (mk_seal os0 0 0) = (mk_seal os0 0 0, WNil)).
  { simpl; rewrite Hex; reflexivity. }
  exists os2, (firstn 16 e2), (firstn gcmStandardNonceSize (skipn 16 e2)), g2.
  unfold seal_run, Walk.
  rewrite (walk_dir_two_files _ _ _ _ _ _ _ _ _ S0 S1 S2).
  split; [reflexivity|].
  unfold os2, os1, update_file; cbn [files].
  assert (D21 : String.eqb path1 path2 = false) by (rewrite String.eqb_sym; exact D12).
  assert (D1' : String.eqb out path1 = false) by (rewrite String.eqb_sym; exact D1).
  assert (D2' : String.eqb out path2 = false) by (rewrite String.eqb_sym; exact D2).
  rewrite ?String.eqb_refl, ?D21, ?D12, ?D1, ?D1', ?D2, ?D2'.
  split; [reflexivity|]; split; [reflexivity|].
  unfold final2, path2 at 1; rewrite Ext_Join by exact Hs2; reflexivity.
Qed.

Lemma seal_extension_collision_witness :
  seal_out_path (Join "d"%string ("notes"%string ++ String dot "md"%string)) = Join "d"%string ("notes"%string ++ aegis_suffix).
Proof.
  refine (proj1 (seal_extension_collision Toy.crypto env_all_ok ex_password
                   "d"%string "notes"%string "md"%string "txt"%string ex_collision_os
                   (string_to_bytes "# notes"%string) ex_plaintext
                   _ _ _ _ _ _ _ _ _ _ _ _ _ _ _)).
  all: first [ discriminate | reflexivity | (vm_compute; lia)
             | (intros salt; simpl; discriminate) ].
Defined.

(** ** More lemmas on the walk functions *)

Lemma substring_0_length (s : string) (n : nat) :
  n <= String.length s -> String.length (substring 0 n s) = n.
Proof.
  revert n; induction s as [|ch s IH]; intros n H; destruct n; simpl in *; try lia.
  rewrite IH by lia; reflexivity.
Qed.


Lemma rand_read_files (n : nat) (st st' : os_state) (b : bytes) :
  rand_read n st = Some (b, st') -> files st' = files st.
Proof.
  unfold rand_read; destruct (Nat.leb n (length (entropy st))); [|discriminate].
  intros H; injection H as _ <-; reflexivity.
Qed.

(** C3, amended. A failed write never deletes the source. In Seal it
    also ends the run: for a readable regular file that does not end in
    [.aegis], when [os.WriteFile] of its sealed name fails, the walk function
    returns an error (the run reports [SealFatal]), has not changed any file
    and has not counted the file. In Unseal's branch with a recovered
    extension, a failed write counts the file as failed, changes nothing
    and lets the walk continue. *)
Theorem write_failure_keeps_source (c : Crypto) (env : os_env) (pw : bytes) :
  (forall path name st pt,
      HasSuffix path aegis_suffix = false ->
      read_file (seal_os st) path = Some pt ->
      write_ok env (seal_out_path path) = false ->
      exists st' e,
        seal_walk_fn c env pw path name Reg None st = (st', WErr e) /\
        files (seal_os st') = files (seal_os st) /\
        filesSealed st' = filesSealed st) /\
  (forall path name info st data ext pt,
      is_dir info = false ->
      HasSuffix path aegis_suffix = true ->
      read_file (unseal_os st) path = Some data ->
      unseal_data c pw data = UOk ext pt ->
      write_ok env (TrimSuffix path aegis_suffix ++ bytes_to_string ext) = false ->
      unseal_walk_fn c env pw path name info None st = (failed st (unseal_os st), WNil)).
Proof.
  split.
  - intros path name st pt Hs Hr Hw.
    unfold seal_walk_fn; rewrite Hs, Hr.
    destruct (rand_read 16 (seal_os st)) as [[salt os1]|] eqn:R1;
      [|exists st, ErrSalt; auto].
    pose proof (rand_read_files _ _ _ _ R1) as F1.
    destruct (scrypt_key c pw salt) as [key|];
      [|eexists _, ErrKey; split; [reflexivity|]; simpl; auto].
    destruct (aes_new_cipher c key) as [block|];
      [|eexists _, ErrCipher; split; [reflexivity|]; simpl; auto].
    destruct (new_gcm block) as [gcm|];
      [|eexists _, ErrGcm; split; [reflexivity|]; simpl; auto].
    destruct (rand_read gcmStandardNonceSize os1) as [[nonce os2]|] eqn:R2;
      [|eexists _, ErrNonce; split; [reflexivity|]; simpl; auto].
    pose proof (rand_read_files _ _ _ _ R2) as F2.
    unfold write_file; rewrite Hw.
    eexists _, ErrWrite; split; [reflexivity|]; simpl; split; [congruence|reflexivity].
  - intros path name info st data ext pt Hd Hs Hr Hu Hw.
    unfold unseal_walk_fn; rewrite Hd, Hs, Hr, Hu; simpl.
    unfold write_file; rewrite Hw; reflexivity.
Qed.

(** C3, counterexample. Sealing [d/a.txt] then [d/b.txt] where writing
    [d/a.aegis] fails: the run ends in [SealFatal ErrWrite] (Seal has no
    failed counter), [d/a.txt] is kept, and [d/b.txt] is never sealed. *)
Lemma seal_write_failure_aborts_run :
  snd ex_seal_write_fails = SealFatal ErrWrite /\
  files (fst ex_seal_write_fails) "d/a.txt"%string = Some (string_to_bytes "a"%string) /\
  files (fst ex_seal_write_fails) "d/b.txt"%string = Some (string_to_bytes "b"%string) /\
  files (fst ex_seal_write_fails) "d/b.aegis"%string = None.
Proof. vm_compute; repeat split. Qed.





(** C6, amended. In Seal, a directory whose name is in [excludeSet]
    and that [readDirNames] can list yields [SkipDir]: the run (final files,
    counters, outcome) is the same whatever such directories contain, at
    any depth. A directory that cannot be listed, whatever its name, makes
    Seal's walk function return the error, which ends the run. Unseal has
    no exclusion set: its walk function returns nil for every listable
    directory, so the walk descends into all of them. *)
Theorem seal_run_ignores_excluded_dirs (c : Crypto) (env : os_env) (pw : bytes)
    (dir : string) (n : node) (os0 : os_state)
    (path name : string) (st : seal_state) (ch : list (string * node)) (ust : unseal_state) :
  seal_run c env pw dir (Some (prune_excluded (os_basename dir) n)) os0 =
  seal_run c env pw dir (Some n) os0 /\
  walk (seal_walk_fn c env pw) path name DirUnreadable st = (st, WErr ErrReadDir) /\
  unseal_walk_fn c env pw path name (DirNode ch) None ust = (ust, WNil).
Proof.
  split; [unfold seal_run, Walk; rewrite walk_seal_prune; reflexivity|].
  split; reflexivity.
Qed.

(** C6, counterexample. Unseal descends into [d/vendor] and decrypts
    [d/vendor/x.aegis] into [d/vendor/x.txt]. *)
Lemma unseal_descends_into_vendor :
  snd ex_unseal_vendor = UnsealComplete 1 0 0 /\
  files (fst ex_unseal_vendor) "d/vendor/x.txt"%string = Some ex_plaintext /\
  files (fst ex_unseal_vendor) "d/vendor/x.aegis"%string = None.
Proof. vm_compute; repeat split. Qed.

(** C7 (symbolic links). Seal counts a symbolic link as skipped and
    leaves it alone, but Unseal has no symlink check: a link
    [d/link.aegis] whose target holds an artifact is read through,
    decrypted into [d/link.txt], and the link is removed. *)
Theorem unseal_follows_symlink :
  snd (seal_run Toy.crypto env_all_ok ex_password "d"%string (Some ex_symlink_tree) ex_symlink_os)
    = SealComplete 0 1 /\
  snd (unseal_run Toy.crypto env_all_ok ex_password "d"%string (Some ex_symlink_tree) ex_symlink_os)
    = UnsealComplete 1 0 0 /\
  files (fst (unseal_run Toy.crypto env_all_ok ex_password "d"%string (Some ex_symlink_tree)
                         ex_symlink_os)) "d/link.txt"%string = Some ex_plaintext /\
  files (fst (unseal_run Toy.crypto env_all_ok ex_password "d"%string (Some ex_symlink_tree)
                         ex_symlink_os)) "d/link.aegis"%string = None.
Proof. vm_compute; repeat split. Qed.

(** C9, amended. In Seal, an included regular file whose bytes cannot be
    read changes nothing: no counter moves and the walk continues; the
    run reports only the sealed and skipped counts. *)
Theorem seal_unreadable_file_uncounted (c : Crypto) (env : os_env) (pw : bytes)
    (path name : string) (st : seal_state) :
  HasSuffix path aegis_suffix = false ->
  read_file (seal_os st) path = None ->
  seal_walk_fn c env pw path name Reg None st = (st, WNil).
Proof. intros Hs Hr; unfold seal_walk_fn; rewrite Hs, Hr; reflexivity. Qed.

(** C9, counterexample. Sealing a directory whose only file [d/a.txt]
    cannot be read reports 0 sealed and 0 skipped, with no failed count. *)
Lemma seal_unreadable_not_reported :
  snd ex_seal_unreadable = SealComplete 0 0.
Proof. vm_compute; reflexivity. Qed.

Lemma write_failure_keeps_source_witness :
  exists st' e,
    seal_walk_fn Toy.crypto (env_write_fails_on "d/a.aegis"%string) ex_password "d/a.txt"%string "a.txt"%string Reg
                 None (mk_seal ex_two_files_os 0 0) = (st', WErr e) /\
    files (seal_os st') = files (seal_os (mk_seal ex_two_files_os 0 0)) /\
    filesSealed st' = filesSealed (mk_seal ex_two_files_os 0 0).
Proof.
  apply (proj1 (write_failure_keeps_source Toy.crypto (env_write_fails_on "d/a.aegis"%string) ex_password)
           "d/a.txt"%string "a.txt"%string (mk_seal ex_two_files_os 0 0) (string_to_bytes "a"%string));
    vm_compute; reflexivity.
Defined.




Lemma seal_unreadable_file_uncounted_witness :
  seal_walk_fn Toy.crypto env_all_ok ex_password "d/a.txt"%string "a.txt"%string Reg
               None (mk_seal (mk_os (fun _ => None) []) 0 0)
  = (mk_seal (mk_os (fun _ => None) []) 0 0, WNil).
Proof.
  apply (seal_unreadable_file_uncounted Toy.crypto env_all_ok ex_password); reflexivity.
Defined.

(** * Further properties of [internal/cli/watch.go], [seal] and [unseal] *)

Lemma decimal_digits_cons (f : nat) (n : Z) (acc : string) :
  exists ch s, decimal_digits (S f) n acc = String ch s.
Proof.
  revert n acc; induction f as [|f IH]; intros n acc; simpl.
  - destruct (Z.eqb (Z.quot n 10) 0); eauto.
  - destruct (Z.eqb (Z.quot n 10) 0); [eauto|apply IH].
Qed.

Lemma fmt_d_nonempty (z : Z) : fmt_d z <> EmptyString.
Proof.
  unfold fmt_d.
  destruct (decimal_digits_cons (Z.to_nat (Z.log2 (Z.abs z))) (Z.abs z) EmptyString) as (ch & s & E).
  rewrite E; destruct (Z.ltb z 0); discriminate.
Qed.

Lemma append_nonempty_l (x y : string) : x <> EmptyString -> (x ++ y)%string <> EmptyString.
Proof. destruct x; simpl; [auto|discriminate]. Qed.

Lemma append_nonempty_r (x y : string) : y <> EmptyString -> (x ++ y)%string <> EmptyString.
Proof. destruct x; simpl; [auto|discriminate]. Qed.

Lemma appendRange_nonempty (b : string) (s e : Z) : appendRange b s e <> EmptyString.
Proof.
  unfold appendRange; destruct (Z.eqb s e); apply append_nonempty_r;
    [apply fmt_d_nonempty|apply append_nonempty_l, fmt_d_nonempty].
Qed.

Lemma appendRange_split (b : string) (s e : Z) :
  appendRange b s e =
    if String.eqb b EmptyString then appendRange EmptyString s e
    else (b ++ "," ++ appendRange EmptyString s e)%string.
Proof.
  destruct b as [|ch b]; [reflexivity|].
  unfold appendRange; simpl String.eqb; cbv iota.
  replace (Nat.ltb 0 (String.length (String ch b))) with true by reflexivity.
  replace (Nat.ltb 0 (String.length EmptyString)) with false by reflexivity.
  destruct (Z.eqb s e); rewrite <- append_assoc_s; reflexivity.
Qed.

Lemma ranges_loop_prefix (l : list Z) :
  forall (b t : string) (s p : Z), t <> EmptyString ->
  ranges_loop (b ++ t) s p l =
    (let '(T, s', p') := ranges_loop t s p l in ((b ++ T)%string, s', p')).
Proof.
  induction l as [|curr rest IH]; intros b t s p Ht; [reflexivity|].
  simpl.
  destruct (Z.eqb curr p); [apply IH; exact Ht|].
  destruct (Z.eqb curr (wrap64 (p + 1))); [apply IH; exact Ht|].
  assert (E : appendRange (b ++ t) s p = (b ++ appendRange t s p)%string).
  { rewrite (appendRange_split (b ++ t)), (appendRange_split t).
    destruct t as [|ch t]; [contradiction|].
    destruct (String.eqb (b ++ String ch t) EmptyString) eqn:Eb.
    - apply String.eqb_eq in Eb; exfalso; revert Eb; apply append_nonempty_r; discriminate.
    - simpl String.eqb; cbv iota; rewrite !append_assoc_s; reflexivity. }
  rewrite E; apply IH, appendRange_nonempty.
Qed.

Lemma append_empty_r_s (x : string) : (x ++ EmptyString)%string = x.
Proof. induction x as [|ch x IH]; simpl; [reflexivity|rewrite IH; reflexivity]. Qed.

Lemma ranges_loop_extends (l : list Z) :
  forall (b : string) (s p : Z), exists u, fst (fst (ranges_loop b s p l)) = (b ++ u)%string.
Proof.
  induction l as [|curr rest IH]; intros b s p; simpl.
  - exists EmptyString; rewrite append_empty_r_s; reflexivity.
  - destruct (Z.eqb curr p); [apply IH|].
    destruct (Z.eqb curr (wrap64 (p + 1))); [apply IH|].
    destruct (IH (appendRange b s p) curr curr) as [u Hu]; rewrite Hu.
    rewrite appendRange_split; destruct (String.eqb b EmptyString) eqn:Eb.
    + apply String.eqb_eq in Eb; subst b; exists (appendRange EmptyString s p ++ u)%string;
        reflexivity.
    + exists ("," ++ appendRange EmptyString s p ++ u)%string; rewrite !append_assoc_s; reflexivity.
Qed.

Lemma ranges_loop_nonempty_start (l : list Z) (b : string) (s p : Z) :
  b <> EmptyString -> fst (fst (ranges_loop b s p l)) <> EmptyString.
Proof.
  intros Hb; destruct (ranges_loop_extends l b s p) as [u Hu]; rewrite Hu.
  apply append_nonempty_l; exact Hb.
Qed.

Lemma ranges_loop_from_empty (l : list Z) :
  forall (b : string) (s p : Z), b <> EmptyString ->
  ranges_loop b s p l =
    (let '(B, s', p') := ranges_loop EmptyString s p l in
     ((if String.eqb B EmptyString then b else (b ++ "," ++ B)%string), s', p')).
Proof.
  induction l as [|curr rest IH]; intros b s p Hb; [reflexivity|].
  simpl.
  destruct (Z.eqb curr p); [apply IH; exact Hb|].
  destruct (Z.eqb curr (wrap64 (p + 1))); [apply IH; exact Hb|].
  rewrite (appendRange_split b).
  destruct (String.eqb b EmptyString) eqn:Eb; [apply String.eqb_eq in Eb; contradiction|].
  replace (appendRange EmptyString s p) with (EmptyString ++ appendRange EmptyString s p)%string
    at 2 by reflexivity.
  set (R := appendRange EmptyString s p).
  assert (HR : R <> EmptyString) by apply appendRange_nonempty.
  rewrite (ranges_loop_prefix rest b ("," ++ R)%string) by discriminate.
  rewrite (ranges_loop_prefix rest "," R) by exact HR.
  simpl append at 1.
  pose proof (ranges_loop_nonempty_start rest R curr curr HR) as HT.
  destruct (ranges_loop R curr curr rest) as [[T s'] p'] eqn:E.
  simpl in HT |- *.
  destruct (String.eqb T EmptyString) eqn:ET; [apply String.eqb_eq in ET; contradiction|].
  change (EmptyString ++ R)%string with R; rewrite E; simpl; rewrite ET; reflexivity.
Qed.

Lemma ranges_loop_app (l1 : list Z) :
  forall (l2 : list Z) (b : string) (s p : Z),
  ranges_loop b s p (l1 ++ l2) =
    (let '(b', s', p') := ranges_loop b s p l1 in ranges_loop b' s' p' l2).
Proof.
  induction l1 as [|curr rest IH]; intros l2 b s p; [reflexivity|].
  simpl; destruct (Z.eqb curr p); [apply IH|].
  destruct (Z.eqb curr (wrap64 (p + 1))); apply IH.
Qed.

Lemma last_cons_default {A : Type} (x : A) (r : list A) (d : A) : last (x :: r) d = last r x.
Proof.
  revert x d; induction r as [|y r IH]; intros x d; [reflexivity|].
  change (last (y :: r) d = last (y :: r) x); rewrite !IH; reflexivity.
Qed.

Lemma ranges_loop_last (l : list Z) :
  forall (b : string) (s p : Z), snd (ranges_loop b s p l) = last l p.
Proof.
  induction l as [|curr rest IH]; intros b s p; [reflexivity|].
  rewrite last_cons_default; simpl.
  destruct (Z.eqb curr p) eqn:E1; [apply Z.eqb_eq in E1; subst curr; apply IH|].
  destruct (Z.eqb curr (wrap64 (p + 1))); apply IH.
Qed.

Lemma formatLineRanges_nonempty (l : list Z) : formatLineRanges l <> EmptyString.
Proof.
  destruct l as [|a r]; [discriminate|]; simpl.
  destruct (ranges_loop EmptyString a a r) as [[b s] p]; apply appendRange_nonempty.
Qed.

(** The line specs [formatLineRanges] and [formatLineRangeFromCount]
    produce are never empty, so the [lineSpec == ""] fallbacks of
    [detectAndShowChanges] and of the event loop never apply. *)
Theorem lineSpec_never_empty (l : list Z) (count : Z) :
  String.eqb (formatLineRanges l) "" = false /\
  String.eqb (formatLineRangeFromCount count) "" = false.
Proof.
  split; apply String.eqb_neq; [apply formatLineRanges_nonempty|].
  unfold formatLineRangeFromCount.
  destruct (Z.leb count 0); [discriminate|].
  destruct (Z.eqb count 1); discriminate.
Qed.

(** [formatLineRanges] closes a range wherever the sequence breaks: when the
    element [x] following a nonempty prefix [l1] is neither equal to the
    prefix's last element [p] nor [p+1] (with Go's 64-bit wrap-around), the
    output is the output for [l1], a comma, and the output for the list from
    [x] on. *)
Theorem formatLineRanges_app (l1 r2 : list Z) (x : Z) :
  l1 <> [] -> x <> last l1 0%Z -> x <> wrap64 (last l1 0%Z + 1) ->
  formatLineRanges (l1 ++ x :: r2) =
    (formatLineRanges l1 ++ "," ++ formatLineRanges (x :: r2))%string.
Proof.
  intros Hne Hx1 Hx2; destruct l1 as [|a r1]; [contradiction|].
  rewrite last_cons_default in Hx1, Hx2.
  simpl formatLineRanges; simpl app.
  rewrite ranges_loop_app.
  pose proof (ranges_loop_last r1 EmptyString a a) as HP.
  destruct (ranges_loop EmptyString a a r1) as [[B1 S1] P1] eqn:E1; simpl in HP; subst P1.
  simpl ranges_loop at 1.
  apply Z.eqb_neq in Hx1, Hx2; rewrite Hx1, Hx2.
  rewrite (ranges_loop_from_empty r2 (appendRange B1 S1 (last r1 a)))
    by apply appendRange_nonempty.
  destruct (ranges_loop EmptyString x x r2) as [[B s'] p'].
  rewrite (appendRange_split B).
  destruct (String.eqb B EmptyString).
  - rewrite appendRange_split.
    destruct (String.eqb (appendRange B1 S1 (last r1 a)) EmptyString) eqn:Ea;
      [apply String.eqb_eq in Ea; exfalso; revert Ea; apply appendRange_nonempty|].
    reflexivity.
  - rewrite appendRange_split.
    destruct (String.eqb (appendRange B1 S1 (last r1 a) ++ "," ++ B) EmptyString) eqn:Ea.
    + apply String.eqb_eq in Ea; exfalso; revert Ea; apply append_nonempty_l, appendRange_nonempty.
    + rewrite !append_assoc_s; reflexivity.
Qed.

Lemma wrap64_id (z : Z) : (- 2 ^ 63 <= z < 2 ^ 63)%Z -> wrap64 z = z.
Proof. intros H; unfold wrap64; rewrite Z.mod_small by lia; lia. Qed.

Lemma ranges_loop_cons (b : string) (s p curr : Z) (rest : list Z) :
  ranges_loop b s p (curr :: rest) =
    if Z.eqb curr p then ranges_loop b s p rest
    else if Z.eqb curr (wrap64 (p + 1)) then ranges_loop b s curr rest
    else ranges_loop (appendRange b s p) curr curr rest.
Proof. reflexivity. Qed.

Lemma ranges_loop_run (k : nat) :
  forall (a : nat) (b : string) (s : Z), (Z.of_nat (a + k) < 2 ^ 63)%Z ->
  ranges_loop b s (Z.of_nat a) (map Z.of_nat (seq (S a) k)) = (b, s, Z.of_nat (a + k)).
Proof.
  induction k as [|k IH]; intros a b s H.
  - rewrite Nat.add_0_r; reflexivity.
  - cbn [seq map]; rewrite ranges_loop_cons.
    replace (Z.eqb (Z.of_nat (S a)) (Z.of_nat a)) with false by (symmetry; apply Z.eqb_neq; lia).
    rewrite wrap64_id by lia.
    replace (Z.eqb (Z.of_nat (S a)) (Z.of_nat a + 1)) with true by (symmetry; apply Z.eqb_eq; lia).
    rewrite IH by lia; do 2 f_equal; lia.
Qed.

(** A run of consecutive line numbers [a, a+1, ..., a+k] with [k >= 1]
    (below [2^63]) is printed as the single range [a-(a+k)]. *)
Theorem formatLineRanges_run (a k : nat) :
  1 <= k -> (Z.of_nat (a + k) < 2 ^ 63)%Z ->
  formatLineRanges (map Z.of_nat (seq a (S k))) =
    (fmt_d (Z.of_nat a) ++ "-" ++ fmt_d (Z.of_nat (a + k)))%string.
Proof.
  intros Hk H; cbn [seq map formatLineRanges].
  rewrite ranges_loop_run by exact H.
  unfold appendRange; simpl.
  replace (Z.eqb (Z.of_nat a) (Z.of_nat (a + k))) with false by (symmetry; apply Z.eqb_neq; lia).
  reflexivity.
Qed.

(** [formatLineRangeFromCount n] prints what [formatLineRanges] prints for
    the lines [1..n] (for [n] below [2^63]): ["-"] for none, ["1"] for one,
    ["1-n"] otherwise. *)
Theorem formatLineRangeFromCount_agrees (n : nat) :
  (Z.of_nat n < 2 ^ 63)%Z ->
  formatLineRangeFromCount (Z.of_nat n) = formatLineRanges (map Z.of_nat (seq 1 n)).
Proof.
  intros H; destruct n as [|m]; [reflexivity|].
  cbn [seq map formatLineRanges].
  rewrite ranges_loop_run by lia.
  unfold formatLineRangeFromCount, appendRange; simpl String.length; cbv iota.
  replace (Z.leb (Z.of_nat (S m)) 0) with false by (symmetry; apply Z.leb_gt; lia).
  destruct m as [|m]; [reflexivity|].
  replace (Z.eqb (Z.of_nat (S (S m))) 1) with false by (symmetry; apply Z.eqb_neq; lia).
  replace (Z.eqb (Z.of_nat 1) (Z.of_nat (1 + S m))) with false by (symmetry; apply Z.eqb_neq; lia).
  reflexivity.
Qed.

(** ** [truncate] *)

(** For [maxLen >= 3], [truncate s maxLen] does not panic and returns a
    string of at most [maxLen] bytes: [s] itself when it fits, otherwise the
    first [maxLen-3] bytes of [s] followed by ["..."], exactly [maxLen] bytes
    long. *)
Theorem truncate_bound (s : string) (maxLen : Z) :
  (3 <= maxLen)%Z ->
  exists r, truncate s maxLen = Some r /\
    (Z.of_nat (String.length r) <= maxLen)%Z /\
    ((Z.of_nat (String.length s) <= maxLen)%Z -> r = s) /\
    ((maxLen < Z.of_nat (String.length s))%Z ->
       r = (substring 0 (Z.to_nat (maxLen - 3)) s ++ "...")%string /\
       Z.of_nat (String.length r) = maxLen).
Proof.
  intros H; unfold truncate.
  destruct (Z.leb (Z.of_nat (String.length s)) maxLen) eqn:E.
  - apply Z.leb_le in E; exists s; repeat split; auto; intros; lia.
  - apply Z.leb_gt in E.
    replace (Z.ltb (maxLen - 3) 0) with false by (symmetry; apply Z.ltb_ge; lia).
    eexists; split; [reflexivity|].
    assert (HL : String.length (substring 0 (Z.to_nat (maxLen - 3)) s ++ "...") =
                 Z.to_nat (maxLen - 3) + 3).
    { rewrite length_append, substring_0_length by lia; reflexivity. }
    rewrite HL; repeat split; intros; lia.
Qed.

(** ** [isTextFile] *)

Lemma self_ratio_ok_true : self_ratio_ok = true.
Proof. vm_compute; reflexivity. Qed.

Lemma self_ratio (n : nat) :
  1 <= n <= 512 ->
  PrimFloat.ltb (0.85)%float (PrimFloat.div (float64_of_int n) (float64_of_int n)) = true.
Proof.
  intros H; pose proof self_ratio_ok_true as E; unfold self_ratio_ok in E.
  rewrite forallb_forall in E; apply E, in_seq; lia.
Qed.

(** A content with a 0x00 byte among its first 512 bytes is never taken for
    text. *)
Theorem isTextFile_nul (content : bytes) :
  In Byte.x00 (firstn 512 content) -> isTextFile content = false.
Proof.
  intros H; destruct content as [|b rest]; [contradiction|].
  unfold isTextFile.
  replace (existsb (fun b0 => Byte.eqb b0 Byte.x00) (firstn 512 (b :: rest))) with true; [reflexivity|].
  symmetry; apply existsb_exists; exists Byte.x00; split; [exact H|reflexivity].
Qed.

(** A content whose first 512 bytes are all printable (32..126, newline,
    carriage return, tab) is taken for text: the float64 ratio
    [printable/checkLen] is then 1, above 0.85. The empty content is text. *)
Theorem isTextFile_printable (content : bytes) :
  forallb is_printable (firstn 512 content) = true -> isTextFile content = true.
Proof.
  intros H; destruct content as [|b rest]; [reflexivity|].
  unfold isTextFile.
  set (w := firstn 512 (b :: rest)) in *.
  replace (existsb (fun b0 => Byte.eqb b0 Byte.x00) w) with false.
  2:{ symmetry; apply not_true_iff_false; intros E.
      apply existsb_exists in E as [x [Hx Ex]].
      apply Byte.byte_dec_bl in Ex; subst x.
      rewrite forallb_forall in H; specialize (H _ Hx); discriminate. }
  assert (Hf : filter is_printable w = w).
  { clear -H; induction w as [|x w IH]; [reflexivity|].
    simpl in H |- *; apply andb_true_iff in H as [Hx Hw]; rewrite Hx, IH by exact Hw; reflexivity. }
  rewrite Hf.
  assert (Hl : length w = Nat.min (length (b :: rest)) 512)
    by (unfold w; rewrite length_firstn; apply Nat.min_comm).
  rewrite <- Hl; apply self_ratio.
  rewrite Hl; simpl length; lia.
Qed.

(** ** [strings.Split] *)

Lemma Split_nl_cons (s : string) : exists first others, Split_nl s = first :: others.
Proof.
  induction s as [|ch s IH]; simpl; [eauto|].
  destruct (Ascii.eqb ch newline); [eauto|].
  destruct IH as (f & o & E); rewrite E; eauto.
Qed.

Lemma Join_nl_cons_char (ch : ascii) (x : string) (r : list string) :
  Join_nl (String ch x :: r) = String ch (Join_nl (x :: r)).
Proof. destruct r; reflexivity. Qed.

Lemma Join_Split_nl (s : string) : Join_nl (Split_nl s) = s.
Proof.
  induction s as [|ch s IH]; [reflexivity|]; simpl.
  destruct (Ascii.eqb ch newline) eqn:E.
  - apply Ascii.eqb_eq in E; subst ch.
    destruct (Split_nl_cons s) as (f & o & Es); rewrite Es in *.
    change (Join_nl (EmptyString :: f :: o)) with (EmptyString ++ String newline (Join_nl (f :: o)))%string.
    rewrite IH; reflexivity.
  - destruct (Split_nl_cons s) as (f & o & Es); rewrite Es in *.
    rewrite Join_nl_cons_char, IH; reflexivity.
Qed.

Lemma bytes_to_string_cons (b : Byte.byte) (r : bytes) :
  bytes_to_string (b :: r) = String (Ascii.ascii_of_byte b) (bytes_to_string r).
Proof. reflexivity. Qed.

Lemma bytes_to_string_inj (a b : bytes) : bytes_to_string a = bytes_to_string b -> a = b.
Proof.
  unfold bytes_to_string; intros H.
  apply (f_equal list_ascii_of_string) in H; rewrite !list_ascii_of_string_of_list_ascii in H.
  apply (f_equal (map Ascii.byte_of_ascii)) in H; rewrite !map_map in H.
  rewrite (map_ext _ (fun x => x) Ascii.byte_of_ascii_of_byte a), (map_ext _ (fun x => x) Ascii.byte_of_ascii_of_byte b), !map_id in H; exact H.
Qed.

Lemma newline_byte (b : Byte.byte) :
  Ascii.eqb (Ascii.ascii_of_byte b) newline = Byte.eqb b (Ascii.byte_of_ascii newline).
Proof. destruct b; reflexivity. Qed.

Lemma Split_nl_length (content : bytes) :
  length (Split_nl (bytes_to_string content)) = S (count_nl content).
Proof.
  unfold count_nl; change (Ascii.byte_of_ascii newline) with Byte.x0a.
  induction content as [|b r IH]; [reflexivity|].
  rewrite bytes_to_string_cons; simpl Split_nl; rewrite newline_byte;
    change (Ascii.byte_of_ascii newline) with Byte.x0a; simpl filter.
  destruct (Byte.eqb b Byte.x0a).
  - simpl; rewrite IH; reflexivity.
  - destruct (Split_nl_cons (bytes_to_string r)) as (f & o & Es); rewrite Es in *; exact IH.
Qed.

Lemma Split_nl_inj (a b : bytes) :
  Split_nl (bytes_to_string a) = Split_nl (bytes_to_string b) -> a = b.
Proof.
  intros H; apply bytes_to_string_inj.
  rewrite <- (Join_Split_nl (bytes_to_string a)), <- (Join_Split_nl (bytes_to_string b)), H.
  reflexivity.
Qed.

(** ** The line diff *)

Lemma insert_sorted_In (x y : Z) (l : list Z) :
  In y (insert_sorted x l) <-> y = x \/ In y l.
Proof.
  induction l as [|z r IH]; simpl; [split; intros [H|H]; subst; auto; contradiction|].
  destruct (Z.ltb x z) eqn:E1;
    [simpl; split; intros [H|[H|H]]; subst; auto|].
  destruct (Z.eqb x z) eqn:E2;
    [apply Z.eqb_eq in E2; subst; simpl; split; [auto|intros [H|[H|H]]; subst; auto]|].
  simpl; rewrite IH; split; intros [H|[H|H]]; subst; auto.
Qed.

Lemma insert_sorted_sorted (x : Z) (l : list Z) :
  StronglySorted Z.lt l -> StronglySorted Z.lt (insert_sorted x l).
Proof.
  induction l as [|z r IH]; simpl; intros H.
  - repeat constructor.
  - apply StronglySorted_inv in H as [Hr Hf].
    destruct (Z.ltb x z) eqn:E1.
    + apply Z.ltb_lt in E1. constructor; [constructor; auto|].
      constructor; [exact E1|]. eapply Forall_impl; [|exact Hf]. intros a Ha; simpl in Ha; lia.
    + destruct (Z.eqb x z) eqn:E2; [constructor; auto|].
      apply Z.ltb_ge in E1; apply Z.eqb_neq in E2.
      constructor; [apply IH; exact Hr|].
      apply Forall_forall; intros a Ha; apply insert_sorted_In in Ha as [->|Ha]; [lia|].
      rewrite Forall_forall in Hf; apply Hf; exact Ha.
Qed.

Lemma lineIndices_fold (l acc : list Z) :
  StronglySorted Z.lt acc ->
  let r := fold_left (fun acc line => if Z.leb line 0 then acc else insert_sorted line acc) l acc in
  StronglySorted Z.lt r /\ (forall y, In y r <-> In y acc \/ (In y l /\ (0 < y)%Z)).
Proof.
  revert acc; induction l as [|x l IH]; intros acc H; simpl.
  - split; [exact H|]; intros y; tauto.
  - destruct (Z.leb x 0) eqn:E.
    + apply Z.leb_le in E. destruct (IH acc H) as [Hs Hi]; split; [exact Hs|].
      intros y; rewrite Hi; split; [tauto|]. intros [?|[[<-|?] ?]]; auto; lia.
    + apply Z.leb_gt in E. destruct (IH _ (insert_sorted_sorted x _ H)) as [Hs Hi].
      split; [exact Hs|]; intros y; rewrite Hi, insert_sorted_In.
      split; [intros [[->|?]|[? ?]]; auto|intros [?|[[<-|?] ?]]; auto].
Qed.

Lemma lineIndices_of_spec (lists : list (list Z)) :
  StronglySorted Z.lt (lineIndices_of lists) /\
  (forall y, In y (lineIndices_of lists) <-> In y (concat lists) /\ (0 < y)%Z).
Proof.
  destruct (lineIndices_fold (concat lists) [] (SSorted_nil _)) as [Hs Hi].
  split; [exact Hs|]; intros y; unfold lineIndices_of; rewrite Hi; simpl; tauto.
Qed.

Lemma sorted_ext (l1 l2 : list Z) :
  StronglySorted Z.lt l1 -> StronglySorted Z.lt l2 ->
  (forall y, In y l1 <-> In y l2) -> l1 = l2.
Proof.
  revert l2; induction l1 as [|x r1 IH]; intros [|y r2] H1 H2 Hi.
  - reflexivity.
  - exfalso; apply (proj2 (Hi y)); left; reflexivity.
  - exfalso; apply (proj1 (Hi x)); left; reflexivity.
  - apply StronglySorted_inv in H1 as [H1 F1]; apply StronglySorted_inv in H2 as [H2 F2].
    rewrite Forall_forall in F1, F2.
    assert (x = y).
    { destruct (proj1 (Hi x) (or_introl eq_refl)) as [->|Hx]; [reflexivity|].
      destruct (proj2 (Hi y) (or_introl eq_refl)) as [->|Hy]; [reflexivity|].
      specialize (F1 _ Hy); specialize (F2 _ Hx); lia. }
    subst y; f_equal; apply IH; auto.
    intros z; split; intros Hz.
    + destruct (proj1 (Hi z) (or_intror Hz)) as [<-|H]; [|exact H].
      specialize (F1 _ Hz); lia.
    + destruct (proj2 (Hi z) (or_intror Hz)) as [<-|H]; [|exact H].
      specialize (F2 _ Hz); lia.
Qed.

Lemma changed_removed_fold (oldLines newLines : list string) (a n : nat) (c r : list Z) :
  let '(c', r') := fold_left
    (fun (acc : list Z * list Z) (i : nat) =>
       let '(changedLines, removedLines) := acc in
       if Nat.leb (length newLines) i then (changedLines, removedLines ++ [Z.of_nat (i + 1)])
       else if String.eqb (nth i oldLines EmptyString) (nth i newLines EmptyString)
       then (changedLines, removedLines)
       else (changedLines ++ [Z.of_nat (i + 1)], removedLines))
    (seq a n) (c, r) in
  (forall y, In y c' <-> In y c \/ exists i, a <= i < a + n /\ i < length newLines /\
       nth i oldLines EmptyString <> nth i newLines EmptyString /\ y = Z.of_nat (i + 1)) /\
  (forall y, In y r' <-> In y r \/ exists i, a <= i < a + n /\ length newLines <= i /\
       y = Z.of_nat (i + 1)).
Proof.
  revert a c r; induction n as [|n IH]; intros a c r; simpl.
  - split; intros y; split; try tauto; intros [H|(i & Hi & _)]; auto; lia.
  - destruct (Nat.leb (length newLines) a) eqn:E.
    + apply Nat.leb_le in E.
      specialize (IH (S a) c (r ++ [Z.of_nat (a + 1)])).
      destruct (fold_left _ _ _) as [c' r']; destruct IH as [IHc IHr]; split; intros y.
      * rewrite IHc; split.
        -- intros [H|(i & Hi & H)]; [auto|right; exists i; split; [lia|exact H]].
        -- intros [H|(i & Hi & Hl & _)]; [auto|lia].
      * rewrite IHr, in_app_iff; simpl; split.
        -- intros [[H|[<-|[]]]|(i & Hi & H)]; auto.
           ++ right; exists a; repeat split; auto; lia.
           ++ right; exists i; split; [lia|exact H].
        -- intros [H|(i & Hi & Hl & ->)]; [auto|].
           destruct (Nat.eq_dec i a) as [->|Hne]; [left; right; left; reflexivity|].
           right; exists i; repeat split; auto; lia.
    + apply Nat.leb_gt in E.
      destruct (String.eqb (nth a oldLines EmptyString) (nth a newLines EmptyString)) eqn:Es.
      * apply String.eqb_eq in Es.
        specialize (IH (S a) c r).
        destruct (fold_left _ _ _) as [c' r']; destruct IH as [IHc IHr]; split; intros y.
        -- rewrite IHc; split.
           ++ intros [H|(i & Hi & H)]; [auto|right; exists i; split; [lia|exact H]].
           ++ intros [H|(i & Hi & Hl & Hn & ->)]; [auto|].
              destruct (Nat.eq_dec i a) as [->|Hne]; [contradiction|].
              right; exists i; repeat split; auto; lia.
        -- rewrite IHr; split.
           ++ intros [H|(i & Hi & H)]; [auto|right; exists i; split; [lia|exact H]].
           ++ intros [H|(i & Hi & Hl & ->)]; [auto|right; exists i; repeat split; auto; lia].
      * apply String.eqb_neq in Es.
        specialize (IH (S a) (c ++ [Z.of_nat (a + 1)]) r).
        destruct (fold_left _ _ _) as [c' r']; destruct IH as [IHc IHr]; split; intros y.
        -- rewrite IHc, in_app_iff; simpl; split.
           ++ intros [[H|[<-|[]]]|(i & Hi & H)]; auto.
              ** right; exists a; repeat split; auto; lia.
              ** right; exists i; split; [lia|exact H].
           ++ intros [H|(i & Hi & Hl & Hn & ->)]; [auto|].
              destruct (Nat.eq_dec i a) as [->|Hne]; [left; right; left; reflexivity|].
              right; exists i; repeat split; auto; lia.
        -- rewrite IHr; split.
           ++ intros [H|(i & Hi & H)]; [auto|right; exists i; split; [lia|exact H]].
           ++ intros [H|(i & Hi & Hl & ->)]; [auto|right; exists i; repeat split; auto; lia].
Qed.

Lemma map_filter_seq_sorted (f : nat -> bool) (a n : nat) :
  StronglySorted Z.lt (map (fun i => Z.of_nat (i + 1)) (filter f (seq a n))) /\
  (forall y, In y (map (fun i => Z.of_nat (i + 1)) (filter f (seq a n))) ->
     (Z.of_nat (a + 1) <= y)%Z).
Proof.
  revert a; induction n as [|n IH]; intros a; simpl; [split; [constructor|tauto]|].
  destruct (IH (S a)) as [Hs Hb].
  destruct (f a); simpl.
  - split.
    + constructor; [exact Hs|]. apply Forall_forall; intros y Hy; specialize (Hb y Hy); lia.
    + intros y [<-|Hy]; [lia|specialize (Hb y Hy); lia].
  - split; [exact Hs|]. intros y Hy; specialize (Hb y Hy); lia.
Qed.

Lemma diff_positions_spec (oldLines newLines : list string) :
  StronglySorted Z.lt (diff_positions oldLines newLines) /\
  (forall y, In y (diff_positions oldLines newLines) <->
     exists i, i < Nat.max (length oldLines) (length newLines) /\
       opt_string_eqb (nth_error oldLines i) (nth_error newLines i) = false /\
       y = Z.of_nat (i + 1)).
Proof.
  unfold diff_positions; split; [apply map_filter_seq_sorted|].
  intros y; rewrite in_map_iff; split.
  - intros (i & <- & Hi); apply filter_In in Hi as [Hi Hf]; apply in_seq in Hi.
    exists i; split; [lia|split; [apply negb_true_iff; exact Hf|reflexivity]].
  - intros (i & Hi & Hf & ->); exists i; split; [reflexivity|].
    apply filter_In; split; [apply in_seq; lia|]. rewrite Hf; reflexivity.
Qed.

Lemma addedLines_of_In (oldLines newLines : list string) (y : Z) :
  In y (addedLines_of oldLines newLines) <->
  exists i, length oldLines <= i < length newLines /\ y = Z.of_nat (i + 1).
Proof.
  unfold addedLines_of; destruct (Nat.ltb (length oldLines) (length newLines)) eqn:E.
  - apply Nat.ltb_lt in E; rewrite in_map_iff; split.
    + intros (i & <- & Hi); apply in_seq in Hi; exists i; split; [lia|reflexivity].
    + intros (i & Hi & ->); exists i; split; [reflexivity|apply in_seq; lia].
  - apply Nat.ltb_ge in E; simpl; split; [tauto|intros (i & Hi & _); lia].
Qed.

Lemma opt_string_eqb_nth (oldLines newLines : list string) (i : nat) :
  i < Nat.max (length oldLines) (length newLines) ->
  (opt_string_eqb (nth_error oldLines i) (nth_error newLines i) = false <->
   (i < length oldLines /\ length newLines <= i) \/
   (length oldLines <= i /\ i < length newLines) \/
   (i < length oldLines /\ i < length newLines /\
    nth i oldLines EmptyString <> nth i newLines EmptyString)).
Proof.
  intros Hm.
  destruct (Nat.lt_ge_cases i (length oldLines)) as [Ho|Ho];
  destruct (Nat.lt_ge_cases i (length newLines)) as [Hn|Hn].
  - rewrite (nth_error_nth' _ EmptyString Ho), (nth_error_nth' _ EmptyString Hn); simpl.
    rewrite String.eqb_neq; split; [intros H; right; right; auto|].
    intros [?|[?|(_ & _ & H)]]; [lia|lia|exact H].
  - rewrite (nth_error_nth' _ EmptyString Ho), (proj2 (nth_error_None _ _) Hn); simpl.
    split; [intros _; left; auto|reflexivity].
  - rewrite (proj2 (nth_error_None _ _) Ho), (nth_error_nth' _ EmptyString Hn); simpl.
    split; [intros _; right; left; auto|reflexivity].
  - lia.
Qed.

Lemma lineIndices_diff_positions (oldLines newLines : list string) :
  let '(c, r) := changed_removed oldLines newLines in
  lineIndices_of [c; addedLines_of oldLines newLines; r] = diff_positions oldLines newLines.
Proof.
  unfold changed_removed.
  pose proof (changed_removed_fold oldLines newLines 0 (length oldLines) [] []) as H.
  destruct (fold_left _ _ _) as [c r]; destruct H as [Hc Hr].
  destruct (lineIndices_of_spec [c; addedLines_of oldLines newLines; r]) as [Hs1 Hi1].
  destruct (diff_positions_spec oldLines newLines) as [Hs2 Hi2].
  apply sorted_ext; [exact Hs1|exact Hs2|]. intros y.
  rewrite Hi1, Hi2; simpl; rewrite app_nil_r, !in_app_iff, Hc, Hr, addedLines_of_In; simpl.
  split.
  - intros [[[[]|(i & Hi & Hl & Hd & ->)]|[(i & Hi & ->)|[[]|(i & Hi & Hl & ->)]]] Hp].
    + exists i; split; [lia|split; [|reflexivity]].
      apply opt_string_eqb_nth; [lia|]; right; right; repeat split; auto; lia.
    + exists i; split; [lia|split; [|reflexivity]].
      apply opt_string_eqb_nth; [lia|]; right; left; lia.
    + exists i; split; [lia|split; [|reflexivity]].
      apply opt_string_eqb_nth; [lia|]; left; lia.
  - intros (i & Hm & Hf & ->); split; [|lia].
    apply (opt_string_eqb_nth _ _ _ Hm) in Hf as [Hf|[Hf|Hf]].
    + right; right; right; exists i; repeat split; auto; lia.
    + right; left; exists i; auto.
    + left; right; exists i; repeat split; try lia; tauto.
Qed.

Lemma opt_string_eqb_refl (a : option string) : opt_string_eqb a a = true.
Proof. destruct a; simpl; [apply String.eqb_refl|reflexivity]. Qed.

Lemma opt_string_eqb_eq (a b : option string) : opt_string_eqb a b = true -> a = b.
Proof.
  destruct a, b; simpl; try discriminate; [|reflexivity].
  intros H; apply String.eqb_eq in H; subst; reflexivity.
Qed.

Lemma diff_positions_nil (oldLines newLines : list string) :
  diff_positions oldLines newLines = [] <-> oldLines = newLines.
Proof.
  split.
  - intros H; apply nth_error_ext; intros i.
    destruct (Nat.lt_ge_cases i (Nat.max (length oldLines) (length newLines))) as [Hm|Hm].
    + destruct (opt_string_eqb (nth_error oldLines i) (nth_error newLines i)) eqn:E.
      * apply opt_string_eqb_eq; exact E.
      * exfalso; destruct (diff_positions_spec oldLines newLines) as [_ Hi].
        assert (Hin : In (Z.of_nat (i + 1)) (diff_positions oldLines newLines))
          by (apply Hi; exists i; auto).
        rewrite H in Hin; destruct Hin.
    + rewrite (proj2 (nth_error_None oldLines i)), (proj2 (nth_error_None newLines i)); auto; lia.
  - intros ->; unfold diff_positions.
    induction (seq 0 (Nat.max (length newLines) (length newLines))) as [|x l IH]; [reflexivity|].
    simpl; rewrite opt_string_eqb_refl; exact IH.
Qed.

(** ** The tracker *)

Section TrackerFacts.
Variable sha256 : bytes -> bytes.
Variable stat_modTime : string -> option Z.
Variable readFileErrText : string -> string.

Lemma addSnapshot_ignore_wf (tr : tracker) (os0 : os_state) (path : string) :
  tracker_wf sha256 tr -> tracker_wf sha256 (addSnapshot_ignore sha256 stat_modTime tr os0 path).
Proof.
  unfold addSnapshot_ignore, addSnapshot; intros H.
  destruct (read_file os0 path) as [c|]; [|exact H].
  destruct (stat_modTime path) as [mt|]; [|exact H].
  intros p s; destruct (String.eqb p path); [intros E; injection E as <-; simpl; auto|apply H].
Qed.

Lemma addSnapshot_ignore_other (tr : tracker) (os0 : os_state) (path q : string) :
  q <> path -> addSnapshot_ignore sha256 stat_modTime tr os0 path q = tr q.
Proof.
  unfold addSnapshot_ignore, addSnapshot; intros Hq.
  destruct (read_file os0 path); [|reflexivity].
  destruct (stat_modTime path); [|reflexivity].
  apply String.eqb_neq in Hq; rewrite Hq; reflexivity.
Qed.

Lemma removeSnapshot_wf (tr : tracker) (path : string) :
  tracker_wf sha256 tr -> tracker_wf sha256 (removeSnapshot tr path).
Proof.
  unfold removeSnapshot; intros H p s; destruct (String.eqb p path); [discriminate|apply H].
Qed.

Lemma detectAndShowChanges_wf (tr : tracker) (os0 : os_state) (path : string) :
  tracker_wf sha256 tr ->
  tracker_wf sha256 (fst (fst (detectAndShowChanges sha256 stat_modTime readFileErrText tr os0 path))).
Proof.
  intros H; unfold detectAndShowChanges, getSnapshot.
  destruct (read_file os0 path); [|exact H].
  destruct (tr path) as [old|]; [|apply addSnapshot_ignore_wf; exact H].
  destruct (bytes_eqb _ _); [exact H|].
  destruct (changed_removed _ _); apply addSnapshot_ignore_wf; exact H.
Qed.

Lemma walk_preserves {St : Type}
    (wf : string -> string -> node -> option walk_error -> St -> St * walk_ret) (P : St -> Prop) :
  (forall path name n err st, P st -> P (fst (wf path name n err st))) ->
  forall n path name st, P st -> P (fst (walk wf path name n st)).
Proof.
  intros Hf; fix IH 1; intros n path name st Hst.
  destruct n as [| |ch| |]; [apply Hf; exact Hst..| |apply Hf; exact Hst|apply Hf; exact Hst].
  rewrite walk_DirNode.
  pose proof (Hf path name (DirNode ch) None st Hst) as H1.
  destruct (wf path name (DirNode ch) None st) as [st1 r]; simpl in H1.
  destruct r; [|exact H1|exact H1].
  revert st1 H1; induction ch as [|[nm child] rest IHl]; intros st1 H1; [exact H1|].
  destruct (node_eq_NoStat child) as [->|Hc].
  - rewrite walk_names_nostat.
    pose proof (Hf (Join path nm) nm NoStat (Some ErrLstat) st1 H1) as H2.
    destruct (wf (Join path nm) nm NoStat (Some ErrLstat) st1) as [s2 r2]; simpl in H2.
    destruct r2; [apply IHl; exact H2|apply IHl; exact H2|exact H2].
  - rewrite walk_names_stat by exact Hc.
    pose proof (IH child (Join path nm) nm st1 H1) as H2.
    destruct (walk wf (Join path nm) nm child st1) as [s2 r2]; simpl in H2.
    destruct r2; [apply IHl; exact H2| |exact H2].
    destruct (is_dir child); [apply IHl; exact H2|exact H2].
Qed.

Lemma walk_no_error {St : Type}
    (wf : string -> string -> node -> option walk_error -> St -> St * walk_ret) :
  (forall path name n err st e, snd (wf path name n err st) <> WErr e) ->
  forall n path name st e, snd (walk wf path name n st) <> WErr e.
Proof.
  intros Hf; fix IH 1; intros n path name st e.
  destruct n as [| |ch| |]; [apply Hf..| |apply Hf|apply Hf].
  rewrite walk_DirNode.
  pose proof (Hf path name (DirNode ch) None st e) as H1.
  destruct (wf path name (DirNode ch) None st) as [st1 r]; simpl in H1.
  destruct r; [|discriminate|exact H1].
  revert st1; induction ch as [|[nm child] rest IHl]; intros st1; [discriminate|].
  destruct (node_eq_NoStat child) as [->|Hc].
  - rewrite walk_names_nostat.
    pose proof (Hf (Join path nm) nm NoStat (Some ErrLstat) st1 e) as H2.
    destruct (wf (Join path nm) nm NoStat (Some ErrLstat) st1) as [s2 r2]; simpl in H2.
    destruct r2; [apply IHl|apply IHl|exact H2].
  - rewrite walk_names_stat by exact Hc.
    pose proof (IH child (Join path nm) nm st1 e) as H2.
    destruct (walk wf (Join path nm) nm child st1) as [s2 r2]; simpl in H2.
    destruct r2; [apply IHl| |exact H2].
    destruct (is_dir child); [apply IHl|discriminate].
Qed.

Lemma snapshot_walk_fn_wf (os0 : os_state) (dir path name : string) (n : node)
    (err : option walk_error) (tr : tracker) :
  tracker_wf sha256 tr ->
  tracker_wf sha256 (fst (snapshot_walk_fn sha256 stat_modTime os0 dir path name n err tr)).
Proof.
  intros H; unfold snapshot_walk_fn; destruct err; [exact H|].
  destruct (is_dir n); [destruct (_ && _); exact H|].
  destruct (_ || _); [exact H|apply addSnapshot_ignore_wf; exact H].
Qed.

Lemma snapshot_walk_fn_no_error (os0 : os_state) (dir path name : string) (n : node)
    (err : option walk_error) (tr : tracker) (e : walk_error) :
  snd (snapshot_walk_fn sha256 stat_modTime os0 dir path name n err tr) <> WErr e.
Proof.
  unfold snapshot_walk_fn; destruct err; [discriminate|].
  destruct (is_dir n); [destruct (_ && _); discriminate|].
  destruct (_ || _); discriminate.
Qed.

End TrackerFacts.

(** ** Theorems about the event loop *)

Lemma formatLineRangeFromCount_S (k : nat) :
  formatLineRangeFromCount (Z.of_nat (S k)) =
  if Nat.eqb k 0 then "1"%string else ("1-" ++ fmt_d (Z.of_nat (S k)))%string.
Proof.
  unfold formatLineRangeFromCount.
  replace (Z.leb (Z.of_nat (S k)) 0) with false by (symmetry; apply Z.leb_gt; lia).
  destruct k; [reflexivity|].
  replace (Z.eqb (Z.of_nat (S (S k))) 1) with false by (symmetry; apply Z.eqb_neq; lia).
  reflexivity.
Qed.

(** The summary of a created file: when [os.ReadFile] fails, size 0, line
    spec ["-"] and no change; otherwise its size in bytes, the line spec
    ["1"] when it holds no newline (an empty file included) and ["1-n"] for
    [n = newlines + 1] otherwise, and a change always. *)
Theorem showNewFileContent_summary (os0 : os_state) (path : string) :
  showNewFileContent os0 path =
  match read_file os0 path with
  | None => mkSummary 0 "-" false
  | Some content =>
      mkSummary (Z.of_nat (length content))
        (if Nat.eqb (count_nl content) 0 then "1"%string
         else ("1-" ++ fmt_d (Z.of_nat (S (count_nl content))))%string)
        true
  end.
Proof.
  unfold showNewFileContent; destruct (read_file os0 path) as [c|]; [|reflexivity].
  rewrite Split_nl_length, formatLineRangeFromCount_S; reflexivity.
Qed.

Section EventTheorems.
Variable sha256 : bytes -> bytes.
Variable stat_modTime : string -> option Z.
Variable readFileErrText : string -> string.

(** A write event on a tracked file whose content is the snapshot's logs
    nothing to the basic log and leaves the tracker as it is, provided the
    tracker's snapshots hold their own hash and lines ([tracker_wf]). *)
Theorem write_event_unchanged (tr : tracker) (os0 : os_state) (path relPath ts : string)
    (s : fileSnapshot) :
  tracker_wf sha256 tr -> tr path = Some s -> read_file os0 path = Some (snap_content s) ->
  on_write_event sha256 stat_modTime readFileErrText tr os0 path relPath ts = (tr, []).
Proof.
  intros Hwf Hs Hr; unfold on_write_event, detectAndShowChanges, getSnapshot.
  rewrite Hr, Hs. destruct (Hwf _ _ Hs) as [Hh _]; rewrite Hh.
  unfold bytes_eqb; destruct (list_eq_dec _ _ _); [reflexivity|contradiction].
Qed.

(** A write event on a tracked file whose hash differs from the snapshot's
    writes exactly one line to the basic log, a ["[Modified]"] line; its
    line spec is [formatLineRanges] of the sorted 1-based positions at which
    the old and new lines differ (a line present on one side only counting
    as different), never empty; the snapshot is then refreshed. *)
Theorem write_event_modified (tr : tracker) (os0 : os_state) (path relPath ts : string)
    (s : fileSnapshot) (content : bytes) :
  tracker_wf sha256 tr -> tr path = Some s -> read_file os0 path = Some content ->
  sha256 content <> snap_hash s ->
  on_write_event sha256 stat_modTime readFileErrText tr os0 path relPath ts =
    (addSnapshot_ignore sha256 stat_modTime tr os0 path,
     [("[Modified] " ++ relPath ++ " | " ++ ts ++ " | size " ++
       fmt_d (Z.of_nat (length content)) ++ " bytes | lines " ++
       formatLineRanges (diff_positions (Split_nl (bytes_to_string (snap_content s)))
                                        (Split_nl (bytes_to_string content))) ++
       String newline "")%string]).
Proof.
  intros Hwf Hs Hr Hne; unfold on_write_event, detectAndShowChanges, getSnapshot.
  rewrite Hr, Hs. destruct (Hwf _ _ Hs) as [Hh Hl].
  unfold bytes_eqb; destruct (list_eq_dec _ _ _) as [E|_]; [congruence|].
  rewrite Hl.
  pose proof (lineIndices_diff_positions (Split_nl (bytes_to_string (snap_content s)))
                (Split_nl (bytes_to_string content))) as Hd.
  destruct (changed_removed _ _) as [cl rl]; cbv zeta; rewrite Hd.
  assert (Hn : diff_positions (Split_nl (bytes_to_string (snap_content s)))
                              (Split_nl (bytes_to_string content)) <> []).
  { intros H; apply diff_positions_nil, Split_nl_inj in H; apply Hne; rewrite Hh, H; reflexivity. }
  destruct (diff_positions _ _) as [|y ys] eqn:Ed; [exfalso; exact (Hn eq_refl)|]. simpl hasChanges.
  rewrite <- Ed.
  replace (String.eqb (formatLineRanges (diff_positions _ _)) "") with false
    by (symmetry; apply String.eqb_neq; apply formatLineRanges_nonempty).
  cbn [lineSpec newSize]; rewrite (proj2 (String.eqb_neq _ _) (formatLineRanges_nonempty _)).
  reflexivity.
Qed.

(** A write event on a readable file the tracker does not know writes two
    lines to the basic log: ["New file with n lines"] for [n = newlines + 1],
    then a ["[Modified]"] line with the line spec of a new file (["1"] when
    it has no newline, ["1-n"] otherwise); it takes the file's snapshot. *)
Theorem write_event_untracked (tr : tracker) (os0 : os_state) (path relPath ts : string)
    (content : bytes) :
  tr path = None -> read_file os0 path = Some content ->
  on_write_event sha256 stat_modTime readFileErrText tr os0 path relPath ts =
    (addSnapshot_ignore sha256 stat_modTime tr os0 path,
     [newFileMsg (S (count_nl content));
      ("[Modified] " ++ relPath ++ " | " ++ ts ++ " | size " ++
       fmt_d (Z.of_nat (length content)) ++ " bytes | lines " ++
       (if Nat.eqb (count_nl content) 0 then "1"%string
        else ("1-" ++ fmt_d (Z.of_nat (S (count_nl content))))%string) ++
       String newline "")%string]).
Proof.
  intros Hs Hr; unfold on_write_event, detectAndShowChanges, getSnapshot.
  rewrite Hr, Hs, Split_nl_length, formatLineRangeFromCount_S; cbn [hasChanges lineSpec newSize].
  replace (Nat.ltb 0 (S (count_nl content))) with true by (symmetry; apply Nat.ltb_lt; lia).
  destruct (Nat.eqb (count_nl content) 0); reflexivity.
Qed.

(** A write event on a file that [os.ReadFile] cannot read writes the
    single line ["Could not read file: <error>"] to the basic log, no
    ["[Modified]"] line, and leaves the tracker as it is. *)
Theorem write_event_unreadable (tr : tracker) (os0 : os_state) (path relPath ts : string) :
  read_file os0 path = None ->
  on_write_event sha256 stat_modTime readFileErrText tr os0 path relPath ts =
    (tr, [couldNotReadMsg readFileErrText path]).
Proof. intros Hr; unfold on_write_event, detectAndShowChanges; rewrite Hr; reflexivity. Qed.

(** Every operation the watch loop applies to the tracker (the initial
    snapshots, a write event, the snapshot after a create event, the removal
    after a remove event) keeps each snapshot's hash and lines those of its
    own content. *)
Theorem tracker_wf_kept (tr : tracker) (os0 : os_state) (dir path relPath ts : string)
    (rootInfo : option node) :
  tracker_wf sha256 tr ->
  tracker_wf sha256 (fst (createInitialSnapshots sha256 stat_modTime tr os0 dir rootInfo)) /\
  tracker_wf sha256 (fst (on_write_event sha256 stat_modTime readFileErrText tr os0 path relPath ts)) /\
  tracker_wf sha256 (addSnapshot_ignore sha256 stat_modTime tr os0 path) /\
  tracker_wf sha256 (removeSnapshot tr path).
Proof.
  intros H; split; [|split; [|split]].
  - unfold createInitialSnapshots, Walk; cbv zeta.
    pose proof (walk_preserves (snapshot_walk_fn sha256 stat_modTime os0 dir)
      (tracker_wf sha256) (snapshot_walk_fn_wf sha256 stat_modTime os0 dir)
      (match rootInfo with Some n => n | None => NoStat end) dir (os_basename dir) tr H) as Hw.
    destruct (walk _ _ _ _ _) as [t r]; destruct r; exact Hw.
  - unfold on_write_event.
    pose proof (detectAndShowChanges_wf sha256 stat_modTime readFileErrText tr os0 path H) as Hd.
    destruct (detectAndShowChanges _ _ _ _ _ _) as [[t sm] msgs]; destruct (hasChanges sm); exact Hd.
  - apply addSnapshot_ignore_wf; exact H.
  - apply removeSnapshot_wf; exact H.
Qed.

(** [createInitialSnapshots] never returns an error, even for a root that
    cannot be stat-ed, and never records a snapshot for a path ending in
    [.aegis]. *)
Theorem createInitialSnapshots_ok (tr : tracker) (os0 : os_state) (dir : string)
    (rootInfo : option node) :
  snd (createInitialSnapshots sha256 stat_modTime tr os0 dir rootInfo) = WNil /\
  (forall p, HasSuffix p aegis_suffix = true ->
     fst (createInitialSnapshots sha256 stat_modTime tr os0 dir rootInfo) p = tr p).
Proof.
  unfold createInitialSnapshots, Walk; cbv zeta.
  set (n := match rootInfo with Some n => n | None => NoStat end).
  pose proof (walk_no_error (snapshot_walk_fn sha256 stat_modTime os0 dir)
                (snapshot_walk_fn_no_error sha256 stat_modTime os0 dir) n dir (os_basename dir) tr) as He.
  pose proof (walk_preserves (snapshot_walk_fn sha256 stat_modTime os0 dir)
    (fun t => forall p, HasSuffix p aegis_suffix = true -> t p = tr p)) as Hp.
  assert (Hstep : forall path name m err t,
            (forall p, HasSuffix p aegis_suffix = true -> t p = tr p) ->
            forall p, HasSuffix p aegis_suffix = true ->
            fst (snapshot_walk_fn sha256 stat_modTime os0 dir path name m err t) p = tr p).
  { intros path name m err t Ht p Hp'. unfold snapshot_walk_fn.
    destruct err; [apply Ht; exact Hp'|].
    destruct (is_dir m); [destruct (_ && _); apply Ht; exact Hp'|].
    destruct (is_symlink m || HasSuffix path aegis_suffix) eqn:Ep; cbn [fst]; [apply Ht; exact Hp'|].
    rewrite addSnapshot_ignore_other; [apply Ht; exact Hp'|].
    intros E; subst p; rewrite Hp', orb_true_r in Ep; discriminate. }
  specialize (Hp Hstep n dir (os_basename dir) tr (fun p _ => eq_refl)).
  destruct (walk _ _ _ _ _) as [t r]; simpl in He, Hp.
  destruct r as [| |e]; split; try reflexivity; try exact Hp.
  exfalso; apply (He e); reflexivity.
Qed.

End EventTheorems.

Section TrackerRoundTrip.
Variable sha256 : bytes -> bytes.
Variable stat_modTime : string -> option Z.

(** When the file can be read and stat-ed, [addSnapshot] succeeds;
    [getSnapshot] then returns the file's content, its hash, its lines (one
    more than its newlines) and its modification time, other paths keep their
    snapshots, and [removeSnapshot] drops exactly that path's snapshot. *)
Theorem addSnapshot_roundtrip (tr : tracker) (os0 : os_state) (path : string)
    (content : bytes) (mt : Z) :
  read_file os0 path = Some content -> stat_modTime path = Some mt ->
  exists tr', addSnapshot sha256 stat_modTime tr os0 path = Some tr' /\
    getSnapshot tr' path =
      Some (mkSnapshot content (sha256 content) (Split_nl (bytes_to_string content)) mt) /\
    length (Split_nl (bytes_to_string content)) = S (count_nl content) /\
    (forall q, q <> path -> getSnapshot tr' q = getSnapshot tr q) /\
    getSnapshot (removeSnapshot tr' path) path = None /\
    (forall q, q <> path -> getSnapshot (removeSnapshot tr' path) q = getSnapshot tr q).
Proof.
  intros Hr Hm; unfold addSnapshot; rewrite Hr, Hm; eexists; split; [reflexivity|].
  unfold getSnapshot, removeSnapshot; rewrite String.eqb_refl.
  split; [reflexivity|split; [apply Split_nl_length|split; [|split; [reflexivity|]]]];
    intros q Hq; apply String.eqb_neq in Hq; rewrite Hq; reflexivity.
Qed.

End TrackerRoundTrip.

Lemma name_ok_app (a b : string) :
  name_ok a = true -> name_ok b = true -> name_ok (a ++ b) = true.
Proof. unfold name_ok; rewrite las_app, forallb_app; intros -> ->; reflexivity. Qed.

Lemma HasPrefix_app (a b : string) : HasPrefix (a ++ b) a = true.
Proof.
  unfold HasPrefix; rewrite length_append, substring_prefix, String.eqb_refl.
  apply andb_true_iff; split; [apply Nat.leb_le; lia|reflexivity].
Qed.

Lemma event_filtered_Join (p m : string) :
  name_ok m = true ->
  (HasPrefix m "watch_log_" || HasPrefix m "watch_detailed_" || HasPrefix m "watch_basic_")%bool
    = true ->
  event_filtered (Join p m) = true.
Proof.
  intros Hm H; unfold event_filtered; rewrite Base_Join by exact Hm.
  rewrite <- !orb_assoc in *; rewrite H, orb_true_r; reflexivity.
Qed.

(** The watch loop drops the events of sealed artifacts (every output path
    [aegis seal] computes), of its own two log files, and of any file whose
    name starts with [watch_log_], [watch_detailed_] or [watch_basic_]. *)
Theorem event_filter_own_files (p q n ts : string) :
  name_ok n = true -> name_ok ts = true ->
  event_filtered (seal_out_path p) = true /\
  event_filtered (Join q ("watch_log_" ++ n)) = true /\
  event_filtered (Join q ("watch_detailed_" ++ n)) = true /\
  event_filtered (Join q ("watch_basic_" ++ n)) = true /\
  event_filtered (detailedLogName ts) = true /\
  event_filtered (basicLogName ts) = true.
Proof.
  intros Hn Hts.
  assert (Hts' : name_ok (ts ++ ".log") = true) by (apply name_ok_app; [exact Hts|reflexivity]).
  split; [unfold event_filtered, seal_out_path; rewrite HasSuffix_Join_aegis; reflexivity|].
  unfold detailedLogName, basicLogName.
  repeat split; apply event_filtered_Join;
    try (apply name_ok_app; [reflexivity|assumption]);
    rewrite HasPrefix_app; rewrite ?orb_true_r; reflexivity.
Qed.

(** ** Seal and unseal over whole trees *)

Lemma seal_walk_fn_dir (c : Crypto) (env : os_env) (pw : bytes) (path name : string)
    (ch : list (string * node)) (st : seal_state) :
  seal_walk_fn c env pw path name (DirNode ch) None st =
    (st, if excludeSet name then WSkipDir else WNil).
Proof. unfold seal_walk_fn; simpl; destruct (excludeSet name); reflexivity. Qed.

Lemma unseal_walk_fn_dir (c : Crypto) (env : os_env) (pw : bytes) (path name : string)
    (ch : list (string * node)) (st : unseal_state) :
  unseal_walk_fn c env pw path name (DirNode ch) None st = (st, WNil).
Proof. reflexivity. Qed.

Lemma walk_seal_all_sealed (c : Crypto) (env : os_env) (pw : bytes) :
  forall (n : node) (path name : string) (o : os_state) (a b : nat),
  all_sealed path n = true ->
  walk (seal_walk_fn c env pw) path name n (mk_seal o a b) =
    (mk_seal o a (b + seal_skip_count name n),
     if is_dir n && excludeSet name then WSkipDir else WNil).
Proof.
  fix IH 1; intros n path name o a b H.
  destruct n as [| |ch| |]; [| | |discriminate|discriminate].
  - simpl in H; simpl; rewrite H; simpl; do 2 f_equal; lia.
  - simpl; do 2 f_equal; lia.
  - simpl is_dir; simpl seal_skip_count; cbn [andb].
    rewrite walk_DirNode, seal_walk_fn_dir.
    destruct (excludeSet name) eqn:Ex; cbv beta iota.
    + do 2 f_equal; lia.
    + revert b; induction ch as [|[nm child] rest IHl]; intros b;
        [rewrite walk_names_nil; do 2 f_equal; lia|].
      simpl in H; apply andb_true_iff in H as [H1 H2].
      assert (Hc : child <> NoStat) by (intros ->; discriminate).
      rewrite walk_names_stat by exact Hc.
      rewrite (IH child (Join path nm) nm o a b H1).
      cbv beta iota fix.
      destruct (is_dir child && excludeSet nm) eqn:Ed.
      * apply andb_true_iff in Ed as [Ed _]; rewrite Ed.
        rewrite (IHl H2 (b + seal_skip_count nm child)); do 2 f_equal; lia.
      * rewrite (IHl H2 (b + seal_skip_count nm child)); do 2 f_equal; lia.
Qed.

Lemma walk_unseal_no_artifacts (c : Crypto) (env : os_env) (pw : bytes) :
  forall (n : node) (path name : string) (o : os_state) (a f k : nat),
  no_artifacts path n = true ->
  walk (unseal_walk_fn c env pw) path name n (mk_unseal o a f k) =
    (mk_unseal o a f (k + leaf_count n), WNil).
Proof.
  fix IH 1; intros n path name o a f k H.
  destruct n as [| |ch| |]; [| | |discriminate|discriminate].
  - simpl in H; apply negb_true_iff in H; cbn [walk]; unfold unseal_walk_fn; cbn [is_dir]; rewrite H; simpl; do 2 f_equal; lia.
  - simpl in H; apply negb_true_iff in H; cbn [walk]; unfold unseal_walk_fn; cbn [is_dir]; rewrite H; simpl; do 2 f_equal; lia.
  - simpl leaf_count; rewrite walk_DirNode, unseal_walk_fn_dir; cbv beta iota.
    revert k; induction ch as [|[nm child] rest IHl]; intros k;
      [rewrite walk_names_nil; do 2 f_equal; lia|].
    simpl in H; apply andb_true_iff in H as [H1 H2].
    assert (Hc : child <> NoStat) by (intros ->; discriminate).
    rewrite walk_names_stat by exact Hc.
    rewrite (IH child (Join path nm) nm o a f k H1); cbv beta iota fix.
    rewrite (IHl H2 (k + leaf_count child)); do 2 f_equal; lia.
Qed.


(** Sealing a tree whose regular files all end in [.aegis], whose
    directories can all be listed and whose entries can all be stat-ed
    changes no file and seals nothing; it reports as skipped every regular
    file and symbolic link outside the excluded directories. *)
Theorem reseal_sealed_tree (c : Crypto) (env : os_env) (pw : bytes) (dir : string)
    (n : node) (os0 : os_state) :
  all_sealed dir n = true ->
  seal_run c env pw dir (Some n) os0 = (os0, SealComplete 0 (seal_skip_count (os_basename dir) n)).
Proof.
  intros H; unfold seal_run, Walk; cbv zeta.
  rewrite (walk_seal_all_sealed c env pw n dir (os_basename dir) os0 0 0 H).
  destruct (is_dir n && excludeSet (os_basename dir)); reflexivity.
Qed.

(** Unsealing a tree with no entry ending in [.aegis], whose directories
    can all be listed and whose entries can all be stat-ed, changes no file,
    unseals and fails nothing, and reports every non-directory entry as
    skipped, excluded directories included. *)
Theorem unseal_plain_tree (c : Crypto) (env : os_env) (pw : bytes) (dir : string)
    (n : node) (os0 : os_state) :
  no_artifacts dir n = true ->
  unseal_run c env pw dir (Some n) os0 = (os0, UnsealComplete 0 0 (leaf_count n)).
Proof.
  intros H; unfold unseal_run, Walk; cbv zeta.
  rewrite (walk_unseal_no_artifacts c env pw n dir (os_basename dir) os0 0 0 0 H); reflexivity.
Qed.

(** ** One file sealed, then unsealed *)

Lemma bytes_to_string_to_bytes (s : string) : bytes_to_string (string_to_bytes s) = s.
Proof.
  unfold bytes_to_string, string_to_bytes; rewrite map_map.
  rewrite (map_ext _ (fun x => x) Ascii.ascii_of_byte_of_ascii), map_id.
  apply string_of_list_ascii_of_string.
Qed.

Lemma TrimSuffix_Join_aegis (p b : string) :
  TrimSuffix (Join p (b ++ aegis_suffix)) aegis_suffix = Join p b.
Proof. unfold Join; rewrite !append_assoc_s; apply TrimSuffix_append. Qed.

Lemma remove_file_ok (env : os_env) (st : os_state) (p : string) :
  remove_ok env p = true -> remove_file env st p = Some (update_file st p None).
Proof. intros H; unfold remove_file; rewrite H; reflexivity. Qed.

Lemma write_file_ok (env : os_env) (st : os_state) (p : string) (data : bytes) :
  write_ok env p = true -> write_file env st p data = Some (update_file st p (Some data)).
Proof. intros H; unfold write_file; rewrite H; reflexivity. Qed.

Lemma Join_append (p b x : string) : (Join p b ++ x)%string = Join p (b ++ x).
Proof. unfold Join; rewrite !append_assoc_s; reflexivity. Qed.

Section FileRoundTrip.
Variable c : Crypto.

Hypothesis gcm_open_seal : forall (g : Aead c) (nonce m : bytes),
    length nonce = gcmStandardNonceSize -> gcm_open g nonce (gcm_seal g nonce m) = Some m.

Lemma unseal_data_seal_final (pw salt nonce ext pt : bytes) (g : Aead c) :
  length salt = 16 -> length nonce = gcmStandardNonceSize ->
  derive_aead c pw salt = Some g -> ~ In Byte.x00 ext ->
  unseal_data c pw (seal_final c g salt nonce ext pt) = UOk ext pt.
Proof.
  intros Hs Hn Hd Hext.
  destruct (seal_final_split c g salt nonce ext pt Hs Hn) as (E1 & E2 & E3 & Hlen).
  rewrite (unseal_data_unfold c pw _ g Hlen) by (rewrite E1; exact Hd).
  rewrite E2, E3, gcm_open_seal by exact Hn.
  rewrite null_index_envelope by exact Hext.
  unfold envelope; rewrite firstn_length_app.
  replace (S (length ext)) with (length ext + 1) by lia.
  rewrite skipn_length_app_plus; reflexivity.
Qed.

(** A file [d/b.s] sealed by the seal walk function and its artifact
    [d/b.aegis] then unsealed by the unseal walk function with the same
    password: the file is back at its own path with its content, the
    artifact is gone, no other path changed, and each step counted one file
    (when [gcm.Open] inverts [gcm.Seal], the key derivation succeeds, the
    writes and removals succeed, and the extension has no 0x00 byte). *)
Theorem seal_unseal_file_roundtrip (env : os_env) (pw : bytes) (d b s name name' : string)
    (st : seal_state) (u f k : nat) (pt : bytes) (g : Aead c) :
  d <> EmptyString -> name_ok b = true -> ext_body_ok s = true ->
  HasSuffix (Join d (b ++ String dot s)) aegis_suffix = false ->
  ~ In Byte.x00 (string_to_bytes (String dot s)) ->
  read_file (seal_os st) (Join d (b ++ String dot s)) = Some pt ->
  16 + gcmStandardNonceSize <= length (entropy (seal_os st)) ->
  derive_aead c pw (firstn 16 (entropy (seal_os st))) = Some g ->
  write_ok env (Join d (b ++ aegis_suffix)) = true ->
  remove_ok env (Join d (b ++ String dot s)) = true ->
  write_ok env (Join d (b ++ String dot s)) = true ->
  remove_ok env (Join d (b ++ aegis_suffix)) = true ->
  let st1 := fst (seal_walk_fn c env pw (Join d (b ++ String dot s)) name Reg None st) in
  let st2 := fst (unseal_walk_fn c env pw (Join d (b ++ aegis_suffix)) name' Reg None
                                 (mk_unseal (seal_os st1) u f k)) in
  filesSealed st1 = S (filesSealed st) /\
  filesUnsealed st2 = S u /\ filesFailed st2 = f /\
  files (unseal_os st2) (Join d (b ++ String dot s)) = Some pt /\
  files (unseal_os st2) (Join d (b ++ aegis_suffix)) = None /\
  (forall q, q <> Join d (b ++ String dot s) -> q <> Join d (b ++ aegis_suffix) ->
     files (unseal_os st2) q = files (seal_os st) q).
Proof.
  intros Hd Hb Hs Hsuf Hnul Hr Hlen Hder Hw1 Hrm1 Hw2 Hrm2; cbv zeta.
  set (path := Join d (b ++ String dot s)) in *.
  set (out := Join d (b ++ aegis_suffix)) in *.
  assert (O : seal_out_path path = out) by (apply seal_out_path_Join; assumption).
  assert (Hext : Ext path = String dot s) by (apply Ext_Join; exact Hs).
  assert (Dpo : String.eqb path out = false).
  { apply String.eqb_neq; intros E; rewrite E in Hsuf; unfold out in Hsuf.
    rewrite HasSuffix_Join_aegis in Hsuf; discriminate. }
  assert (Dop : String.eqb out path = false) by (rewrite String.eqb_sym; exact Dpo).
  pose proof (seal_walk_fn_reg_sealed c env pw path name st pt g Hsuf Hr Hlen Hder)
    as Hseal.
  rewrite O in Hseal; specialize (Hseal Hw1); cbv zeta in Hseal.
  rewrite Hseal, (remove_file_ok _ _ _ Hrm1); cbn [fst seal_os filesSealed].
  set (e := entropy (seal_os st)) in *.
  set (salt := firstn 16 e) in *.
  set (nonce := firstn gcmStandardNonceSize (skipn 16 e)) in *.
  set (final := seal_final c g salt nonce (string_to_bytes (Ext path)) pt) in *.
  set (os4 := update_file (update_file (mk_os (files (seal_os st))
                 (skipn gcmStandardNonceSize (skipn 16 e))) out (Some final)) path None) in *.
  assert (Hunseal : unseal_data c pw final = UOk (string_to_bytes (String dot s)) pt).
  { unfold final; rewrite Hext; apply unseal_data_seal_final; try assumption.
    - unfold salt; rewrite length_firstn; unfold gcmStandardNonceSize in Hlen; lia.
    - unfold nonce; rewrite length_firstn, length_skipn; unfold gcmStandardNonceSize in *; lia. }
  assert (Hread : read_file os4 out = Some final).
  { unfold os4, read_file, update_file; simpl; rewrite Dop, String.eqb_refl; reflexivity. }
  assert (Hpath : (TrimSuffix out aegis_suffix ++ bytes_to_string (string_to_bytes (String dot s)))%string
                  = path).
  { unfold out; rewrite TrimSuffix_Join_aegis, bytes_to_string_to_bytes, Join_append; reflexivity. }
  split; [reflexivity|].
  assert (Hso : HasSuffix out aegis_suffix = true) by apply HasSuffix_Join_aegis.
  unfold unseal_walk_fn; cbn [is_dir unseal_os]; rewrite Hso; cbn [negb].
  rewrite Hread, Hunseal; cbv zeta; rewrite Hpath.
  rewrite (write_file_ok _ _ _ _ Hw2), (remove_file_ok _ _ _ Hrm2).
  cbn [fst filesUnsealed filesFailed unseal_os].
  split; [reflexivity|split; [reflexivity|]].
  unfold os4, update_file; cbn [files].
  rewrite Dpo, !String.eqb_refl.
  split; [reflexivity|split; [reflexivity|]].
  intros q Hq1 Hq2; apply String.eqb_neq in Hq1, Hq2; rewrite Hq1, Hq2; reflexivity.
Qed.

End FileRoundTrip.

(** ** Witnesses *)

Lemma ex_tracker_wf : tracker_wf ex_hash ex_tracker.
Proof.
  intros p s H; unfold ex_tracker in H.
  destruct (String.eqb p "d/a.txt"%string); [injection H as <-; split; reflexivity|discriminate].
Qed.

Lemma newFileTracker_wf (h : bytes -> bytes) : tracker_wf h newFileTracker.
Proof. intros p s H; discriminate. Qed.

Lemma formatLineRanges_app_witness :
  ([1%Z; 2%Z] <> [] /\ 5%Z <> last [1%Z; 2%Z] 0%Z /\ 5%Z <> wrap64 (last [1%Z; 2%Z] 0%Z + 1)) /\
  formatLineRanges ([1%Z; 2%Z] ++ [5%Z; 6%Z]) =
    (formatLineRanges [1%Z; 2%Z] ++ "," ++ formatLineRanges [5%Z; 6%Z])%string.
Proof.
  split; [split; [discriminate|split; vm_compute; discriminate]|].
  apply formatLineRanges_app; [discriminate|vm_compute; discriminate|vm_compute; discriminate].
Defined.

Lemma formatLineRanges_run_witness :
  (1 <= 2 /\ (Z.of_nat (3 + 2) < 2 ^ 63)%Z) /\
  formatLineRanges (map Z.of_nat (seq 3 (S 2))) =
    (fmt_d (Z.of_nat 3) ++ "-" ++ fmt_d (Z.of_nat (3 + 2)))%string.
Proof.
  split; [split; [lia|vm_compute; reflexivity]|].
  apply formatLineRanges_run; [lia|vm_compute; reflexivity].
Defined.

Lemma formatLineRangeFromCount_agrees_witness :
  (Z.of_nat 4 < 2 ^ 63)%Z /\
  formatLineRangeFromCount (Z.of_nat 4) = formatLineRanges (map Z.of_nat (seq 1 4)).
Proof.
  split; [vm_compute; reflexivity|].
  apply formatLineRangeFromCount_agrees; vm_compute; reflexivity.
Defined.

Lemma truncate_bound_witness :
  (3 <= 8)%Z /\
  exists r, truncate "hello world" 8 = Some r /\
    (Z.of_nat (String.length r) <= 8)%Z /\
    ((Z.of_nat (String.length "hello world") <= 8)%Z -> r = "hello world"%string) /\
    ((8 < Z.of_nat (String.length "hello world"))%Z ->
       r = (substring 0 (Z.to_nat (8 - 3)) "hello world" ++ "...")%string /\
       Z.of_nat (String.length r) = 8%Z).
Proof. split; [lia|apply truncate_bound; lia]. Defined.

Lemma isTextFile_nul_witness :
  In Byte.x00 (firstn 512 [Byte.x61; Byte.x00]) /\ isTextFile [Byte.x61; Byte.x00] = false.
Proof.
  split; [simpl; right; left; reflexivity|].
  apply isTextFile_nul; simpl; right; left; reflexivity.
Defined.

Lemma isTextFile_printable_witness :
  forallb is_printable (firstn 512 ex_edited) = true /\ isTextFile ex_edited = true.
Proof.
  split; [vm_compute; reflexivity|].
  apply isTextFile_printable; vm_compute; reflexivity.
Defined.

Lemma write_event_unchanged_witness :
  (tracker_wf ex_hash ex_tracker /\ ex_tracker "d/a.txt"%string = Some ex_snapshot /\
   read_file (ex_watch_os ex_plaintext) "d/a.txt"%string = Some (snap_content ex_snapshot)) /\
  on_write_event ex_hash ex_modTime ex_readErr ex_tracker (ex_watch_os ex_plaintext)
    "d/a.txt"%string "a.txt"%string "ts"%string = (ex_tracker, []).
Proof.
  split; [split; [exact ex_tracker_wf|split; reflexivity]|].
  apply write_event_unchanged with (s := ex_snapshot); [exact ex_tracker_wf|reflexivity|reflexivity].
Defined.

Lemma write_event_modified_witness :
  (tracker_wf ex_hash ex_tracker /\ ex_tracker "d/a.txt"%string = Some ex_snapshot /\
   read_file (ex_watch_os ex_edited) "d/a.txt"%string = Some ex_edited /\
   ex_hash ex_edited <> snap_hash ex_snapshot) /\
  on_write_event ex_hash ex_modTime ex_readErr ex_tracker (ex_watch_os ex_edited)
    "d/a.txt"%string "a.txt"%string "ts"%string =
    (addSnapshot_ignore ex_hash ex_modTime ex_tracker (ex_watch_os ex_edited) "d/a.txt"%string,
     [("[Modified] " ++ "a.txt" ++ " | " ++ "ts" ++ " | size " ++
       fmt_d (Z.of_nat (length ex_edited)) ++ " bytes | lines " ++
       formatLineRanges (diff_positions (Split_nl (bytes_to_string (snap_content ex_snapshot)))
                                        (Split_nl (bytes_to_string ex_edited))) ++
       String newline "")%string]).
Proof.
  split; [split; [exact ex_tracker_wf|split; [reflexivity|split; [reflexivity|vm_compute; discriminate]]]|].
  apply write_event_modified with (s := ex_snapshot); [exact ex_tracker_wf|reflexivity|reflexivity|vm_compute; discriminate].
Defined.

Lemma write_event_untracked_witness :
  (newFileTracker "d/a.txt"%string = None /\
   read_file (ex_watch_os ex_edited) "d/a.txt"%string = Some ex_edited) /\
  on_write_event ex_hash ex_modTime ex_readErr newFileTracker (ex_watch_os ex_edited)
    "d/a.txt"%string "a.txt"%string "ts"%string =
    (addSnapshot_ignore ex_hash ex_modTime newFileTracker (ex_watch_os ex_edited) "d/a.txt"%string,
     [newFileMsg (S (count_nl ex_edited));
      ("[Modified] " ++ "a.txt" ++ " | " ++ "ts" ++ " | size " ++
       fmt_d (Z.of_nat (length ex_edited)) ++ " bytes | lines " ++
       (if Nat.eqb (count_nl ex_edited) 0 then "1"%string
        else ("1-" ++ fmt_d (Z.of_nat (S (count_nl ex_edited))))%string) ++
       String newline "")%string]).
Proof.
  split; [split; reflexivity|].
  apply write_event_untracked; reflexivity.
Defined.

Lemma write_event_unreadable_witness :
  read_file (ex_watch_os ex_edited) "d/b.txt"%string = None /\
  on_write_event ex_hash ex_modTime ex_readErr ex_tracker (ex_watch_os ex_edited)
    "d/b.txt"%string "b.txt"%string "ts"%string =
    (ex_tracker, [couldNotReadMsg ex_readErr "d/b.txt"%string]).
Proof. split; [reflexivity|apply write_event_unreadable; reflexivity]. Defined.

Lemma tracker_wf_kept_witness :
  tracker_wf ex_hash ex_tracker /\
  (tracker_wf ex_hash
     (fst (createInitialSnapshots ex_hash ex_modTime ex_tracker (ex_watch_os ex_edited)
             "d"%string (Some ex_watch_tree))) /\
   tracker_wf ex_hash
     (fst (on_write_event ex_hash ex_modTime ex_readErr ex_tracker (ex_watch_os ex_edited)
             "d/a.txt"%string "a.txt"%string "ts"%string)) /\
   tracker_wf ex_hash (addSnapshot_ignore ex_hash ex_modTime ex_tracker (ex_watch_os ex_edited)
                        "d/a.txt"%string) /\
   tracker_wf ex_hash (removeSnapshot ex_tracker "d/a.txt"%string)).
Proof.
  split; [exact ex_tracker_wf|].
  exact (tracker_wf_kept ex_hash ex_modTime ex_readErr ex_tracker (ex_watch_os ex_edited) "d"%string
           "d/a.txt"%string "a.txt"%string "ts"%string (Some ex_watch_tree) ex_tracker_wf).
Defined.

Lemma addSnapshot_roundtrip_witness :
  (read_file (ex_watch_os ex_edited) "d/a.txt"%string = Some ex_edited /\
   ex_modTime "d/a.txt"%string = Some 0%Z) /\
  exists tr', addSnapshot ex_hash ex_modTime newFileTracker (ex_watch_os ex_edited) "d/a.txt"%string
                = Some tr' /\
    getSnapshot tr' "d/a.txt"%string =
      Some (mkSnapshot ex_edited (ex_hash ex_edited) (Split_nl (bytes_to_string ex_edited)) 0%Z) /\
    length (Split_nl (bytes_to_string ex_edited)) = S (count_nl ex_edited) /\
    (forall q, q <> "d/a.txt"%string -> getSnapshot tr' q = getSnapshot newFileTracker q) /\
    getSnapshot (removeSnapshot tr' "d/a.txt"%string) "d/a.txt"%string = None /\
    (forall q, q <> "d/a.txt"%string ->
       getSnapshot (removeSnapshot tr' "d/a.txt"%string) q = getSnapshot newFileTracker q).
Proof. split; [split; reflexivity|apply addSnapshot_roundtrip; reflexivity]. Defined.

Lemma event_filter_own_files_witness :
  (name_ok "x.txt"%string = true /\ name_ok "2026-10-16_12-00-00"%string = true) /\
  event_filtered (seal_out_path "d/a.txt"%string) = true /\
  event_filtered (Join "d" ("watch_log_" ++ "x.txt")) = true /\
  event_filtered (Join "d" ("watch_detailed_" ++ "x.txt")) = true /\
  event_filtered (Join "d" ("watch_basic_" ++ "x.txt")) = true /\
  event_filtered (detailedLogName "2026-10-16_12-00-00") = true /\
  event_filtered (basicLogName "2026-10-16_12-00-00") = true.
Proof.
  split; [split; vm_compute; reflexivity|].
  apply event_filter_own_files; vm_compute; reflexivity.
Defined.


Lemma reseal_sealed_tree_witness :
  all_sealed "d" ex_sealed_tree = true /\
  seal_run Toy.crypto env_all_ok ex_password "d"%string (Some ex_sealed_tree) ex_roundtrip_os =
    (ex_roundtrip_os, SealComplete 0 (seal_skip_count (os_basename "d") ex_sealed_tree)).
Proof. split; [vm_compute; reflexivity|apply reseal_sealed_tree; vm_compute; reflexivity]. Defined.

Lemma unseal_plain_tree_witness :
  no_artifacts "d" ex_plain_tree = true /\
  unseal_run Toy.crypto env_all_ok ex_password "d"%string (Some ex_plain_tree) ex_roundtrip_os =
    (ex_roundtrip_os, UnsealComplete 0 0 (leaf_count ex_plain_tree)).
Proof. split; [vm_compute; reflexivity|apply unseal_plain_tree; vm_compute; reflexivity]. Defined.

Lemma seal_unseal_file_roundtrip_witness :
  let st1 := fst (seal_walk_fn Toy.crypto env_all_ok ex_password (Join "d" ("a" ++ String dot "txt"))
                               "a.txt" Reg None (mk_seal ex_roundtrip_os 0 0)) in
  let st2 := fst (unseal_walk_fn Toy.crypto env_all_ok ex_password (Join "d" ("a" ++ aegis_suffix))
                                 "a.aegis" Reg None (mk_unseal (seal_os st1) 0 0 0)) in
  filesSealed st1 = 1 /\ filesUnsealed st2 = 1 /\ filesFailed st2 = 0 /\
  files (unseal_os st2) (Join "d" ("a" ++ String dot "txt")) = Some ex_plaintext /\
  files (unseal_os st2) (Join "d" ("a" ++ aegis_suffix)) = None /\
  (forall q, q <> Join "d" ("a" ++ String dot "txt") -> q <> Join "d" ("a" ++ aegis_suffix) ->
     files (unseal_os st2) q = files ex_roundtrip_os q).
Proof.
  apply (seal_unseal_file_roundtrip Toy.crypto ToyFacts.toy_open_seal env_all_ok ex_password
           "d" "a" "txt" "a.txt" "a.aegis" (mk_seal ex_roundtrip_os 0 0) 0 0 0 ex_plaintext ex_password);
    try (vm_compute; reflexivity); try discriminate.
  intros H; vm_compute in H; repeat (destruct H as [H|H]; [discriminate H|]); exact H.
Defined.
